(** * Verification of the levelcache tiered lookup/fill engine

    A shallow embedding of [cache.go], [options.go] and the engine file
    ([cacheImpl]: [MGet], [mGetFromLRUCache], [mGetFromRedisCache], [MSet],
    [mSet], [mSetLRUCache], [mSetRedisCache], [MDel], [mkRedisKey],
    [substract], [compress], [decompress]).

    Modelling choices:
    - byte slices are [list Byte.byte]; a Go [nil] slice is the empty list;
    - time is a single clock reading [now] in nanoseconds (Go's
      [time.Duration] unit) per call: every [time.Now()] inside one call
      reads the same instant;
    - the local tier (ccache) is a map from key to an item holding the stored
      bytes and the absolute expiry instant; capacity eviction is an external
      concern and is not modelled;
    - the remote tier (redis) is a map from the namespaced key to the stored
      bytes and an optional absolute expiry; the outcome of the GET pipeline
      is an input flag of the call (a failed [pipe.Exec] fails every GET),
      and the fate of each write command (applied or not, reply read or
      lost) is an input function of the call;
    - a stored byte string is represented by what [proto.Unmarshal] makes of
      it: zero-length ([missBytes]), the encoding of a [Data] record, or
      malformed bytes. Proto3 encodes the all-default record as zero bytes;
    - the snappy codec is an external capability: a pair of functions given
      as a type class instance. *)

From Stdlib Require Import ZArith List.
From stdpp Require Import base gmap strings list.
Import ListNotations.
Open Scope Z_scope.

Abbreviation bytes := (list Byte.byte).

(** ** Wire record *)

(** [CompressionType] proto enum values. *)
Definition CompressionType_None : Z := 0.
Definition CompressionType_Snappy : Z := 1.

(** The proto message [Data]. *)
Record Data := mkData {
  Raw : bytes;
  ModifyTime : Z;          (* Unix seconds *)
  CompressionType : Z
}.

(** A stored byte string, seen through [proto.Unmarshal]. *)
Inductive blob :=
| BlobEmpty                (* the zero-length byte string *)
| BlobProto (d : Data)     (* a well-formed encoding of [d] *)
| BlobMalformed.           (* bytes that fail to decode *)

(** [missBytes = []byte("")]. *)
Definition missBytes : blob := BlobEmpty.

(** [bytes.Equal(bs, missBytes)]. *)
Definition is_missBytes (b : blob) : bool :=
  match b with BlobEmpty => true | _ => false end.

Definition data_is_default (d : Data) : bool :=
  match Raw d with [] => true | _ => false end
  && Z.eqb (ModifyTime d) 0 && Z.eqb (CompressionType d) CompressionType_None.

(** [proto.Marshal(&data)]: proto3 writes no bytes for default fields. *)
Definition proto_Marshal (d : Data) : blob :=
  if data_is_default d then BlobEmpty else BlobProto d.

(** [proto.Unmarshal(bs, &data)]. *)
Definition proto_Unmarshal (b : blob) : option Data :=
  match b with
  | BlobEmpty => Some (mkData [] 0 CompressionType_None)
  | BlobProto d => Some d
  | BlobMalformed => None
  end.

(** ** Options ([options.go]) *)

Definition Millisecond : Z := 1000000.
Definition Second : Z := 1000000000.

Record LRUCacheOpts := mkLRUCacheOpts {
  Size : Z;
  Timeout : Z;
  MissTimeout : Z
}.

Record RedisCacheOpts := mkRedisCacheOpts {
  Client : option nat;     (* [None] is a nil [*redis.Client] *)
  Prefix : string;
  HardTimeout : Z;
  SoftTimeout : Z;
  RedisMissTimeout : Z
}.

(** The loader: [func(ctx, keys []string) (map[string][]byte, error)]. *)
Definition loader_fn := list string -> gmap string bytes * option string.

Record Options := mkOptions {
  LRUCacheOptions : option LRUCacheOpts;
  RedisCacheOptions : option RedisCacheOpts;
  Loader : option loader_fn;
  options_CompressionType : Z
}.

Inductive error :=
| ErrOptions (msg : string)
| ErrLoader (msg : string)
| ErrRedisWrite.

(** [LRUCacheOptions.isValid]. *)
Definition lru_isValid (o : option LRUCacheOpts) : option error :=
  match o with
  | None => None
  | Some o =>
    if Size o <=? 0 then Some (ErrOptions "lrucache size invalid")
    else if negb (MissTimeout o =? 0) && (MissTimeout o <? Millisecond)
    then Some (ErrOptions "lrucache miss timeout at least 1ms")
    else if (Timeout o <=? 0) || (negb (MissTimeout o =? 0) && (Timeout o <=? MissTimeout o))
    then Some (ErrOptions "lrucache timeout invalid")
    else None
  end.

(** [RedisCacheOptions.isValid]. *)
Definition redis_isValid (o : option RedisCacheOpts) : option error :=
  match o with
  | None => None
  | Some o =>
    match Client o with
    | None => Some (ErrOptions "redis client invalid")
    | Some _ =>
      if String.eqb (Prefix o) "" then Some (ErrOptions "rediscache prefix invalid")
      else if negb (RedisMissTimeout o =? 0) && (RedisMissTimeout o <? Millisecond)
      then Some (ErrOptions "rediscache miss timeout at least 1ms")
      else None
    end
  end.

(** [Options.isValid]. *)
Definition options_isValid (options : option Options) : option error :=
  match options with
  | None => Some (ErrOptions "options nil")
  | Some o =>
    match LRUCacheOptions o, RedisCacheOptions o with
    | None, None => Some (ErrOptions "both lrucache and rediscache options nil")
    | _, _ =>
      match lru_isValid (LRUCacheOptions o) with
      | Some e => Some e
      | None => redis_isValid (RedisCacheOptions o)
      end
    end
  end.

(** ** Tier state *)

(** A ccache item: stored value and absolute expiry ([UnixNano]). *)
Record lru_item := mkItem {
  item_value : blob;
  item_expires : Z
}.

(** ccache's [Item.Expired]: [expires < time.Now().UnixNano()]. *)
Definition item_Expired (now : Z) (it : lru_item) : bool :=
  item_expires it <? now.

Record State := mkState {
  lruData : gmap string lru_item;
  redisData : gmap string (blob * option Z)
}.

(** A redis GET at instant [now]: keys past their expiry are gone. *)
Definition redis_get (st : State) (now : Z) (rkey : string) : option blob :=
  match redisData st !! rkey with
  | Some (b, Some e) => if now <? e then Some b else None
  | Some (b, None) => Some b
  | None => None
  end.

(** The expiry a redis [SET key value expiration] sent by go-redis gives:
    none for a non-positive duration; otherwise go-redis sends [px] with the
    duration in whole milliseconds (or [ex] in seconds for a whole number of
    seconds, the same instant). A positive duration under 1ms is sent as
    [px 0], which redis rejects: [None] is a rejected command. *)
Definition redis_expiry (now d : Z) : option (option Z) :=
  if 0 <? d then
    if d <? Millisecond then None else Some (Some (now + d / Millisecond * Millisecond))
  else Some None.

(** The fate of one redis write command: applied and acknowledged, applied
    with its reply lost (the client sees an error), or never applied (the
    client sees an error). *)
Inductive cmd_fate := CmdOk | CmdLost | CmdDropped.

Definition cmd_applied (f : cmd_fate) : bool :=
  match f with CmdDropped => false | _ => true end.

Definition cmd_failed (f : cmd_fate) : bool :=
  match f with CmdOk => false | _ => true end.

(** [cacheImpl] as built by [newCacheImpl]. *)
Record cacheImpl := mkCacheImpl {
  name : string;
  options : Options
}.

Definition newCacheImpl (name : string) (options : Options) : cacheImpl :=
  mkCacheImpl name options.

Inductive NewCacheResult :=
| Panic (e : error)
| Created (c : cacheImpl).

(** [NewCache]: panics on an empty name or invalid options. *)
Definition NewCache (name : string) (options : option Options) : NewCacheResult :=
  if String.eqb name "" then Panic (ErrOptions "name empty")
  else match options_isValid options with
       | Some e => Panic e
       | None =>
         match options with
         | Some o => Created (newCacheImpl name o)
         | None => Panic (ErrOptions "options nil")
         end
       end.


(** The configurations the specification calls invalid, written from its
    wording (not from [isValid]): empty name, nil options, both tier
    configurations absent, a local capacity or fresh timeout that is not
    positive, a nonzero local negative timeout below 1ms or not below the
    fresh timeout, a nil remote client, an empty remote prefix, or a nonzero
    remote miss timeout below 1ms. *)
Definition spec_config_invalid (name : string) (options : option Options) : Prop :=
  name = "" \/
  match options with
  | None => True
  | Some o =>
    (LRUCacheOptions o = None /\ RedisCacheOptions o = None) \/
    (exists lo, LRUCacheOptions o = Some lo /\
       (Size lo <= 0 \/ Timeout lo <= 0 \/
        (MissTimeout lo <> 0 /\ (MissTimeout lo < Millisecond \/ Timeout lo <= MissTimeout lo)))) \/
    (exists ro, RedisCacheOptions o = Some ro /\
       (Client ro = None \/ Prefix ro = "" \/
        (RedisMissTimeout ro <> 0 /\ RedisMissTimeout ro < Millisecond)))
  end.


(** ** The engine ([cacheImpl]) *)

(** The snappy codec capability: [snappy.Encode] and [snappy.Decode]
    ([None] is a decode error). *)
Class Snappy := {
  snappy_encode : bytes -> bytes;
  snappy_decode : bytes -> option bytes
}.

Section Engine.

Context {SN : Snappy}.

(** [compress]. *)
Definition compress (compressionType : Z) (bs : bytes) : bytes :=
  if compressionType =? CompressionType_None then bs
  else if compressionType =? CompressionType_Snappy then snappy_encode bs
  else bs.

(** [decompress]: [None] is a returned error. *)
Definition decompress (compressionType : Z) (bs : bytes) : option bytes :=
  if compressionType =? CompressionType_None then Some bs
  else if compressionType =? CompressionType_Snappy then snappy_decode bs
  else None.

(** [mkRedisKey]. *)
Definition mkRedisKey (opts : Options) (key : string) : string :=
  match RedisCacheOptions opts with
  | Some o => Prefix o +:+ "_" +:+ key
  | None => key
  end.

(** [substract]. *)
Definition substract (x y : list string) : list string :=
  filter (fun e => e ∉ y) x.

(** The accumulator of the read passes: [missKeys], [valuesMap], [validsMap]. *)
Definition acc := (list string * gmap string bytes * gmap string bool)%type.

(** One iteration of the loop of [mGetFromLRUCache]. *)
Definition lru_step (st : State) (now : Z) (a : acc) (key : string) : acc :=
  let '(missKeys, valuesMap, validsMap) := a in
  match lruData st !! key with
  | Some item =>
    let bs := item_value item in
    if is_missBytes bs then
      (* loader once missed; if already expired, try the next level *)
      if item_Expired now item then (missKeys ++ [key], valuesMap, validsMap)
      else (missKeys, valuesMap, validsMap)
    else
      match proto_Unmarshal bs with
      | None => (missKeys ++ [key], valuesMap, validsMap)
      | Some data =>
        let valuesMap := <[key := Raw data]> valuesMap in
        if negb (item_Expired now item) then
          (missKeys, valuesMap, <[key := true]> validsMap)
        else (missKeys ++ [key], valuesMap, validsMap)
      end
  | None => (missKeys ++ [key], valuesMap, validsMap)
  end.

(** [mGetFromLRUCache]: returns the keys left for the next level. *)
Definition mGetFromLRUCache (opts : Options) (st : State) (now : Z)
    (keys : list string) (valuesMap : gmap string bytes)
    (validsMap : gmap string bool) : acc :=
  match LRUCacheOptions opts, keys with
  | None, _ | _, [] => (keys, valuesMap, validsMap)
  | Some _, _ => fold_left (lru_step st now) keys ([], valuesMap, validsMap)
  end.

(** One iteration of the result loop of [mGetFromRedisCache]; [got] is the
    outcome of the pipelined GET of this key ([None]: the command failed). *)
Definition redis_step (o : RedisCacheOpts) (now : Z) (got : option blob)
    (a : acc) (key : string) : acc :=
  let '(missKeys, valuesMap, validsMap) := a in
  match got with
  | None => (missKeys ++ [key], valuesMap, validsMap)
  | Some v =>
    if is_missBytes v then (missKeys, valuesMap, validsMap)   (* loader miss *)
    else
      match proto_Unmarshal v with
      | None => (missKeys ++ [key], valuesMap, validsMap)
      | Some data =>
        (* on a decompress error [raw] is the nil slice; only logged *)
        let raw := match decompress (CompressionType data) (Raw data) with
                   | Some r => r
                   | None => []
                   end in
        if now - ModifyTime data * Second <=? SoftTimeout o then
          (missKeys, <[key := raw]> valuesMap, <[key := true]> validsMap)
        else
          (* lrucache expired has higher priority over redis cache soft expired *)
          let valuesMap := match valuesMap !! key with
                           | Some _ => valuesMap
                           | None => <[key := raw]> valuesMap
                           end in
          (missKeys ++ [key], valuesMap, validsMap)
      end
  end.

(** The outcome of the pipelined GET of one key: a failed [pipe.Exec]
    ([get_ok = false]) fails every command. *)
Definition redis_cmd (opts : Options) (st : State) (now : Z) (get_ok : bool)
    (key : string) : option blob :=
  if get_ok then redis_get st now (mkRedisKey opts key) else None.

(** [mGetFromRedisCache]. *)
Definition mGetFromRedisCache (opts : Options) (st : State) (now : Z)
    (get_ok : bool) (keys : list string) (valuesMap : gmap string bytes)
    (validsMap : gmap string bool) : acc :=
  match RedisCacheOptions opts, keys with
  | None, _ | _, [] => (keys, valuesMap, validsMap)
  | Some o, _ =>
    fold_left (fun a key => redis_step o now (redis_cmd opts st now get_ok key) a key)
      keys ([], valuesMap, validsMap)
  end.

(** The record [mSetLRUCache] stores for a value. *)
Definition lru_record (now : Z) (v : bytes) : Data :=
  {| Raw := v; ModifyTime := now / Second; CompressionType := CompressionType_None |}.

(** [mSetLRUCache]. *)
Definition mSetLRUCache (opts : Options) (st : State) (now : Z)
    (kvs : gmap string bytes) (missKeys : list string) : State :=
  match LRUCacheOptions opts with
  | None => st
  | Some o =>
    let lru := map_fold (fun k v m =>
                 <[k := mkItem (proto_Marshal (lru_record now v)) (now + Timeout o)]> m)
                 (lruData st) kvs in
    let lru := if MissTimeout o =? 0 then lru
               else fold_left (fun m key =>
                      <[key := mkItem missBytes (now + MissTimeout o)]> m) missKeys lru in
    mkState lru (redisData st)
  end.

(** The record [mSetRedisCache] stores for a value. *)
Definition redis_record (opts : Options) (now : Z) (v : bytes) : Data :=
  {| Raw := compress (options_CompressionType opts) v;
     ModifyTime := now / Second;
     CompressionType := options_CompressionType opts |}.

(** One [pipe.Set] of [mSetRedisCache], on the redis map and whether a
    command of the pipeline has failed so far: a command redis rejects is
    not applied and fails; otherwise [fate rkey] decides. *)
Definition redis_set (now : Z) (fate : string -> cmd_fate) (rkey : string) (b : blob)
    (d : Z) (a : gmap string (blob * option Z) * bool) : gmap string (blob * option Z) * bool :=
  let '(rd, failed) := a in
  match redis_expiry now d with
  | None => (rd, true)
  | Some e =>
    ((if cmd_applied (fate rkey) then <[rkey := (b, e)]> rd else rd),
     failed || cmd_failed (fate rkey))
  end.

(** [mSetRedisCache]: the pipeline is not a transaction. Each [SET] is
    applied or not on its own ([fate rkey] is the fate of the [SET] of redis
    key [rkey]; [MSet] and [MGet] set a key at most once per call), the
    applied ones stay applied, and [pipe.Exec] returns an error when any
    command failed. *)
Definition mSetRedisCache (opts : Options) (st : State) (now : Z)
    (fate : string -> cmd_fate) (kvs : gmap string bytes) (missKeys : list string)
    : State * option error :=
  match RedisCacheOptions opts with
  | None => (st, None)
  | Some o =>
    let a := map_fold (fun k v a =>
               redis_set now fate (mkRedisKey opts k) (proto_Marshal (redis_record opts now v))
                 (HardTimeout o) a)
               (redisData st, false) kvs in
    let a := if Millisecond <=? RedisMissTimeout o then
               fold_left (fun a key =>
                 redis_set now fate (mkRedisKey opts key) missBytes (RedisMissTimeout o) a)
                 missKeys a
             else a in
    (mkState (lruData st) a.1, if a.2 then Some ErrRedisWrite else None)
  end.

(** [mSet]. *)
Definition mSet (opts : Options) (st : State) (now : Z) (fate : string -> cmd_fate)
    (kvs : gmap string bytes) (missKeys : list string) : State * option error :=
  if bool_decide (kvs = ∅) && bool_decide (missKeys = []) then (st, None)
  else
    let st := mSetLRUCache opts st now kvs missKeys in
    mSetRedisCache opts st now fate kvs missKeys.

(** [MSet]. *)
Definition MSet (opts : Options) (st : State) (now : Z) (fate : string -> cmd_fate)
    (kvs : gmap string bytes) : State * option error :=
  mSet opts st now fate kvs [].

(** [MDel]: [fate] is the fate of the single redis [DEL] of all the keys;
    its error (returned as [ErrRedisWrite], the error of a redis write
    command) comes after the local entries have been deleted, and a [DEL]
    whose reply was lost has deleted the keys all the same. *)
Definition MDel (opts : Options) (st : State) (fate : cmd_fate) (keys : list string)
    : State * option error :=
  match keys with
  | [] => (st, None)
  | _ =>
    let lru := match LRUCacheOptions opts with
               | Some _ => fold_left (fun m key => delete key m) keys (lruData st)
               | None => lruData st
               end in
    match RedisCacheOptions opts with
    | Some _ =>
      let redisKeys := map (mkRedisKey opts) keys in
      let rd := if cmd_applied fate
                then fold_left (fun m rkey => delete rkey m) redisKeys (redisData st)
                else redisData st in
      (mkState lru rd, if cmd_failed fate then Some ErrRedisWrite else None)
    | None => (mkState lru (redisData st), None)
    end
  end.

(** The outcome of one [MGet] call: the three returned values, and the keys
    sent to the redis pipeline and to the loader (when called). *)
Record MGetResult := mkResult {
  valuesMap : gmap string bytes;
  validsMap : gmap string bool;
  err : option error;
  redis_keys : list string;
  loader_keys : option (list string)
}.

(** The warm-up split of [MGet]: values already in [valuesMap] and the
    keys without one. *)
Definition split_hits (valuesMap : gmap string bytes) (redisHitKeys : list string)
    : gmap string bytes * list string :=
  fold_left (fun '(redisValues, emptyKeys) key =>
      match valuesMap !! key with
      | Some v => (<[key := v]> redisValues, emptyKeys)
      | None => (redisValues, emptyKeys ++ [key])
      end) redisHitKeys (∅, []).

(** [for k, v := range values { valuesMap[k] = v; validsMap[k] = true }]. *)
Definition merge_loaded (values : gmap string bytes)
    (maps : gmap string bytes * gmap string bool) : gmap string bytes * gmap string bool :=
  map_fold (fun k v '(vm, va) => (<[k := v]> vm, <[k := true]> va)) maps values.

(** [MGet]. *)
Definition MGet (opts : Options) (st : State) (now : Z) (get_ok : bool)
    (set_fate : string -> cmd_fate)
    (keys : list string) : MGetResult * State :=
  match keys with
  | [] => (mkResult ∅ ∅ None [] None, st)
  | _ =>
    let '(lruMissKeys, vm, va) := mGetFromLRUCache opts st now keys ∅ ∅ in
    match lruMissKeys with
    | [] => (mkResult vm va None [] None, st)
    | _ =>
      let rkeys := match RedisCacheOptions opts with Some _ => lruMissKeys | None => [] end in
      let '(redisMissKeys, vm, va) :=
        mGetFromRedisCache opts st now get_ok lruMissKeys vm va in
      (* set redis to lru *)
      let redisHitKeys := substract lruMissKeys redisMissKeys in
      let st := match redisHitKeys with
                | [] => st
                | _ => let '(redisValues, emptyKeys) := split_hits vm redisHitKeys in
                       mSetLRUCache opts st now redisValues emptyKeys
                end in
      match redisMissKeys with
      | [] => (mkResult vm va None rkeys None, st)
      | _ =>
        match Loader opts with
        | None => (mkResult vm va None rkeys None, st)
        | Some loader =>
          let '(values, lerr) := loader redisMissKeys in
          let '(vm, va) := merge_loaded values (vm, va) in
          match lerr with
          | Some e => (mkResult vm va (Some (ErrLoader e)) rkeys (Some redisMissKeys), st)
          | None =>
            let loaderMissKeys :=
              filter (fun key => values !! key = None) redisMissKeys in
            let '(st, e) := mSet opts st now set_fate values loaderMissKeys in
            (mkResult vm va e rkeys (Some redisMissKeys), st)
          end
        end
      end
    end
  end.

(** ** Per-key and per-phase views of [MGet], used by the proofs *)

(** What the local pass does with one key: whether it is carried on, the
    value it records, and whether it marks the key valid. *)
Definition lru_view (st : State) (now : Z) (key : string) : bool * option bytes * bool :=
  match lruData st !! key with
  | Some item =>
    if is_missBytes (item_value item) then (item_Expired now item, None, false)
    else match proto_Unmarshal (item_value item) with
         | None => (true, None, false)
         | Some data => (item_Expired now item, Some (Raw data), negb (item_Expired now item))
         end
  | None => (true, None, false)
  end.

(** The payload a remote record yields after [decompress]. *)
Definition remote_raw (data : Data) : bytes :=
  match decompress (CompressionType data) (Raw data) with Some r => r | None => [] end.

(** What the remote pass does with one key, given the outcome of its GET:
    whether it is carried on, how it updates the key's value, and whether it
    marks the key valid. *)
Definition redis_view (o : RedisCacheOpts) (now : Z) (got : option blob)
    : bool * (option bytes -> option bytes) * bool :=
  match got with
  | None => (true, fun x => x, false)
  | Some v =>
    if is_missBytes v then (false, fun x => x, false)
    else match proto_Unmarshal v with
         | None => (true, fun x => x, false)
         | Some data =>
           if now - ModifyTime data * Second <=? SoftTimeout o
           then (false, fun _ => Some (remote_raw data), true)
           else (true, fun x => match x with Some _ => x | None => Some (remote_raw data) end, false)
         end
  end.

(** The local-tier warm-up [MGet] performs after the remote pass. *)
Definition warm (opts : Options) (st : State) (now : Z) (vm : gmap string bytes)
    (lruMissKeys redisMissKeys : list string) : State :=
  let redisHitKeys := substract lruMissKeys redisMissKeys in
  match redisHitKeys with
  | [] => st
  | _ => let '(redisValues, emptyKeys) := split_hits vm redisHitKeys in
         mSetLRUCache opts st now redisValues emptyKeys
  end.

(** The loader call [MGet] makes, if any, and its outcome. *)
Definition loader_out (opts : Options) (redisMissKeys : list string)
    : option (gmap string bytes * option string) :=
  match redisMissKeys, Loader opts with
  | _ :: _, Some ld => Some (ld redisMissKeys)
  | _, _ => None
  end.

(** The entry the loader returned for [key] in an [MGet] call, when the
    call invoked it (asked for [key] or not). *)
Definition loaded_entry (opts : Options) (r : MGetResult) (key : string) : option bytes :=
  match Loader opts, loader_keys r with
  | Some ld, Some ks => (ld ks).1 !! key
  | _, _ => None
  end.

(** Whether the [SET] of redis key [rkey] with duration [d] fails: redis
    rejects it, or its reply is not read back. *)
Definition set_failed (now : Z) (fate : string -> cmd_fate) (rkey : string) (d : Z) : bool :=
  match redis_expiry now d with
  | None => true
  | Some _ => cmd_failed (fate rkey)
  end.

(** The entry of redis key [rkey] after its [SET] to [b] with duration [d],
    from the entry [old] before it. *)
Definition set_result (now : Z) (fate : string -> cmd_fate) (rkey : string) (b : blob)
    (d : Z) (old : option (blob * option Z)) : option (blob * option Z) :=
  match redis_expiry now d with
  | Some e => if cmd_applied (fate rkey) then Some (b, e) else old
  | None => old
  end.

(** Every local-tier record is stored uncompressed. *)
Definition lru_uncompressed (st : State) : Prop :=
  forall k it d, lruData st !! k = Some it -> item_value it = BlobProto d ->
    CompressionType d = CompressionType_None.

End Engine.

(** ** Concrete configurations *)

(** A codec that stores bytes as they are, standing for snappy in the
    concrete runs below. *)
#[global] Instance ident_snappy : Snappy := {
  snappy_encode := fun b => b;
  snappy_decode := fun b => Some b
}.

(** Every write command of a call applied and acknowledged. *)
Definition all_ok : string -> cmd_fate := fun _ => CmdOk.

(** The options of the test suites: local tier of 3 items, fresh for 500ms,
    negative entries for 100ms; remote tier with 2s hard and 1s soft
    timeouts. *)
Definition test_lru : LRUCacheOpts := mkLRUCacheOpts 3 (500 * Millisecond) (100 * Millisecond).
Definition test_redis : RedisCacheOpts :=
  mkRedisCacheOpts (Some 0%nat) "levelcache.test" (2 * Second) (1 * Second) (100 * Millisecond).

(** Loaders: one that never finds a key, one that always fails. *)
Definition miss_loader : loader_fn := fun _ => (∅, None).
Definition failing_loader : loader_fn := fun _ => (∅, Some "loader error").

Definition val_a : bytes := [Byte.x76; Byte.x61].   (* "va" *)
Definition val_b : bytes := [Byte.x76; Byte.x62].   (* "vb" *)

(** Option sets of the concrete runs: both tiers, each tier alone, a loader
    that answers with a key it was not asked for, a local tier without
    negative caching, a remote tier with a 500ms soft timeout, and a failing
    loader. *)
Definition opts_both : Options :=
  mkOptions (Some test_lru) (Some test_redis) (Some miss_loader) CompressionType_None.
Definition opts_lru : Options :=
  mkOptions (Some test_lru) None (Some miss_loader) CompressionType_None.
Definition opts_redis : Options :=
  mkOptions None (Some test_redis) (Some miss_loader) CompressionType_None.
Definition stray_loader : loader_fn := fun _ => ({["a" := val_b]}, None).
Definition opts_stray : Options :=
  mkOptions (Some test_lru) None (Some stray_loader) CompressionType_None.
Definition lru_no_neg : LRUCacheOpts := mkLRUCacheOpts 3 (500 * Millisecond) 0.
Definition opts_no_neg : Options :=
  mkOptions (Some lru_no_neg) (Some test_redis) (Some miss_loader) CompressionType_None.
Definition redis_soft : RedisCacheOpts :=
  mkRedisCacheOpts (Some 0%nat) "levelcache.test" (2 * Second) (500 * Millisecond)
    (100 * Millisecond).
Definition opts_soft : Options := mkOptions None (Some redis_soft) None CompressionType_None.
Definition opts_failing : Options :=
  mkOptions (Some test_lru) None (Some failing_loader) CompressionType_None.

(** Records and tier states of the concrete runs. *)
Definition rec_a : Data := mkData val_a 1 CompressionType_None.
Definition rec_b : Data := mkData val_b 10 CompressionType_None.
Definition rec_bad_tag : Data := mkData val_a 10 2.
Definition item_stale_a : lru_item := mkItem (BlobProto rec_a) Second.
Definition item_fresh_a : lru_item := mkItem (BlobProto rec_a) (5 * Second).
Definition st_empty : State := mkState ∅ ∅.
Definition st_stale_a : State := mkState {["a" := item_stale_a]} ∅.
Definition st_fresh_a : State := mkState {["a" := item_fresh_a]} ∅.
Definition st_stale_a_remote_b : State :=
  mkState {["a" := item_stale_a]} {["levelcache.test_a" := (BlobProto rec_b, None)]}.
Definition st_bad_tag : State :=
  mkState ∅ {["levelcache.test_a" := (BlobProto rec_bad_tag, None)]}.
Definition st_stale_a_remote_miss : State :=
  mkState {["a" := item_stale_a]} {["levelcache.test_a" := (missBytes, None)]}.

(** A second remote-only cache whose prefix extends the test prefix. *)
Definition redis_ns : RedisCacheOpts :=
  mkRedisCacheOpts (Some 0%nat) "levelcache.test_users" (2 * Second) (1 * Second)
    (100 * Millisecond).
Definition opts_ns : Options := mkOptions None (Some redis_ns) None CompressionType_None.

(** ** Lemmas on the passes of [MGet] *)

Section Proofs.
Context {SN : Snappy}.

Lemma partial_alter_id {A} (i : string) (m : gmap string A) :
  partial_alter (fun x => x) i m = m.
Proof. apply map_eq; intros j. rewrite lookup_partial_alter. by case_decide; subst. Qed.

(** A loop whose iteration for [key] appends [key] to the carried keys on a
    fixed condition and updates only the entries of [key] by idempotent
    functions: after the loop each entry has been updated once if its key
    occurs in the list. *)
Lemma fold_steps (f : acc -> string -> acc) (missb : string -> bool)
    (uvm : string -> option bytes -> option bytes)
    (uva : string -> option bool -> option bool) :
  (forall m vm va key, f (m, vm, va) key =
     (m ++ (if missb key then [key] else []),
      partial_alter (uvm key) key vm, partial_alter (uva key) key va)) ->
  (forall key x, uvm key (uvm key x) = uvm key x) ->
  (forall key x, uva key (uva key x) = uva key x) ->
  forall keys m0 vm0 va0,
    let '(m, vm, va) := fold_left f keys (m0, vm0, va0) in
    m = m0 ++ filter (fun k => missb k = true) keys /\
    (forall k, vm !! k = if decide (k ∈ keys) then uvm k (vm0 !! k) else vm0 !! k) /\
    (forall k, va !! k = if decide (k ∈ keys) then uva k (va0 !! k) else va0 !! k).
Proof.
  intros Hf Hvm Hva keys. induction keys as [|key keys IH]; intros m0 vm0 va0;
    cbn [fold_left].
  - split; [by rewrite filter_nil, app_nil_r|].
    split; intros k; (rewrite decide_False; [done|apply not_elem_of_nil]).
  - rewrite Hf.
    specialize (IH (m0 ++ (if missb key then [key] else []))
                   (partial_alter (uvm key) key vm0) (partial_alter (uva key) key va0)).
    destruct (fold_left f keys _) as [[m vm] va].
    destruct IH as (Hm & Hv & Ha). split; [|split].
    + rewrite Hm, <- app_assoc, filter_cons. f_equal.
      case_decide as Hd; destruct (missb key); simpl; congruence.
    + intros k. rewrite Hv, !lookup_partial_alter.
      repeat case_decide; subst; try set_solver; auto.
    + intros k. rewrite Ha, !lookup_partial_alter.
      repeat case_decide; subst; try set_solver; auto.
Qed.

Lemma lru_step_eq st now m vm va key :
  lru_step st now (m, vm, va) key =
    (m ++ (if (lru_view st now key).1.1 then [key] else []),
     partial_alter (fun x => match (lru_view st now key).1.2 with
                             | Some r => Some r | None => x end) key vm,
     partial_alter (fun x => if (lru_view st now key).2 then Some true else x) key va).
Proof.
  unfold lru_step, lru_view.
  destruct (lruData st !! key) as [[b e]|]; simpl;
    [destruct b; simpl; [destruct (item_Expired now _)| |] |]; simpl;
    rewrite ?app_nil_r, ?partial_alter_id; try reflexivity.
  destruct (item_Expired now _); simpl; rewrite ?app_nil_r, ?partial_alter_id; reflexivity.
Qed.

Lemma redis_step_eq o now got m vm va key :
  redis_step o now got (m, vm, va) key =
    (m ++ (if (redis_view o now got).1.1 then [key] else []),
     partial_alter (redis_view o now got).1.2 key vm,
     partial_alter (fun x => if (redis_view o now got).2 then Some true else x) key va).
Proof.
  unfold redis_step, redis_view.
  destruct got as [b|]; simpl; [|by rewrite !partial_alter_id].
  destruct b; simpl; rewrite ?app_nil_r, ?partial_alter_id; try reflexivity.
  destruct (_ <=? _); simpl; [by rewrite app_nil_r|].
  rewrite partial_alter_id. f_equal. f_equal.
  apply map_eq; intros j. rewrite lookup_partial_alter.
  destruct (vm !! key) eqn:E; case_decide; subst;
    rewrite ?E, ?lookup_insert; repeat case_decide; subst; try done.
Qed.

Lemma redis_view_idem o now got x :
  (redis_view o now got).1.2 ((redis_view o now got).1.2 x) = (redis_view o now got).1.2 x.
Proof.
  unfold redis_view. destruct got as [b|]; simpl; [|done].
  destruct b; simpl; try done. destruct (_ <=? _); simpl; [done|]. by destruct x.
Qed.

Lemma mGetFromLRUCache_None opts st now keys vm va :
  LRUCacheOptions opts = None ->
  mGetFromLRUCache opts st now keys vm va = (keys, vm, va).
Proof. intros H. unfold mGetFromLRUCache. rewrite H. reflexivity. Qed.

Lemma mGetFromRedisCache_None opts st now g keys vm va :
  RedisCacheOptions opts = None ->
  mGetFromRedisCache opts st now g keys vm va = (keys, vm, va).
Proof. intros H. unfold mGetFromRedisCache. rewrite H. reflexivity. Qed.

Lemma mGetFromRedisCache_nil opts st now g vm va :
  mGetFromRedisCache opts st now g [] vm va = ([], vm, va).
Proof. unfold mGetFromRedisCache. by destruct (RedisCacheOptions opts). Qed.

Lemma mGetFromLRUCache_Some opts st now keys vm0 va0 lo :
  LRUCacheOptions opts = Some lo ->
  let '(m, vm, va) := mGetFromLRUCache opts st now keys vm0 va0 in
  m = filter (fun k => (lru_view st now k).1.1 = true) keys /\
  (forall k, vm !! k = if decide (k ∈ keys) then
                         match (lru_view st now k).1.2 with Some r => Some r | None => vm0 !! k end
                       else vm0 !! k) /\
  (forall k, va !! k = if decide (k ∈ keys) then
                         (if (lru_view st now k).2 then Some true else va0 !! k)
                       else va0 !! k).
Proof.
  intros H.
  assert (mGetFromLRUCache opts st now keys vm0 va0 =
          fold_left (lru_step st now) keys ([], vm0, va0)) as ->.
  { unfold mGetFromLRUCache. rewrite H. by destruct keys. }
  pose proof (fold_steps (lru_step st now) (fun k => (lru_view st now k).1.1)
    (fun k x => match (lru_view st now k).1.2 with Some r => Some r | None => x end)
    (fun k x => if (lru_view st now k).2 then Some true else x)) as HF.
  specialize (HF (lru_step_eq st now)).
  specialize (HF ltac:(intros k x; cbv beta; by destruct (lru_view st now k) as [[? [r|]] ?])).
  specialize (HF ltac:(intros k x; cbv beta; by destruct (lru_view st now k) as [[? ?] []])).
  specialize (HF keys [] vm0 va0).
  destruct (fold_left _ _ _) as [[m vm] va]. exact HF.
Qed.

Lemma mGetFromRedisCache_Some opts st now g keys vm0 va0 o :
  RedisCacheOptions opts = Some o ->
  let '(m, vm, va) := mGetFromRedisCache opts st now g keys vm0 va0 in
  m = filter (fun k => (redis_view o now (redis_cmd opts st now g k)).1.1 = true) keys /\
  (forall k, vm !! k = if decide (k ∈ keys) then
                         (redis_view o now (redis_cmd opts st now g k)).1.2 (vm0 !! k)
                       else vm0 !! k) /\
  (forall k, va !! k = if decide (k ∈ keys) then
                         (if (redis_view o now (redis_cmd opts st now g k)).2
                          then Some true else va0 !! k)
                       else va0 !! k).
Proof.
  intros H.
  assert (mGetFromRedisCache opts st now g keys vm0 va0 =
          fold_left (fun a key => redis_step o now (redis_cmd opts st now g key) a key)
            keys ([], vm0, va0)) as ->.
  { unfold mGetFromRedisCache. rewrite H. by destruct keys. }
  pose proof (fold_steps (fun a key => redis_step o now (redis_cmd opts st now g key) a key)
    (fun k => (redis_view o now (redis_cmd opts st now g k)).1.1)
    (fun k => (redis_view o now (redis_cmd opts st now g k)).1.2)
    (fun k x => if (redis_view o now (redis_cmd opts st now g k)).2 then Some true else x)) as HF.
  specialize (HF ltac:(intros; apply redis_step_eq)).
  specialize (HF ltac:(intros; apply redis_view_idem)).
  specialize (HF ltac:(intros k x; cbv beta; by destruct (redis_view o now _) as [[? ?] []])).
  specialize (HF keys [] vm0 va0).
  destruct (fold_left _ _ _) as [[m vm] va]. exact HF.
Qed.

Lemma merge_loaded_empty p : merge_loaded ∅ p = p.
Proof. unfold merge_loaded. by rewrite map_fold_empty. Qed.

Lemma merge_loaded_lookup values vm va :
  let '(vm', va') := merge_loaded values (vm, va) in
  (forall k, vm' !! k = match values !! k with Some v => Some v | None => vm !! k end) /\
  (forall k, va' !! k = match values !! k with Some _ => Some true | None => va !! k end).
Proof.
  unfold merge_loaded. induction values as [|i x m Hi IH] using map_ind.
  - rewrite map_fold_empty. split; intros k; by rewrite lookup_empty.
  - rewrite map_fold_insert_L;
      [|intros j1 j2 z1 z2 [a b] Hne _ _; simpl; f_equal; by apply insert_insert_ne|done].
    destruct (map_fold _ (vm, va) m) as [vm1 va1]. destruct IH as [H1 H2].
    split; intros k; rewrite !lookup_insert; case_decide; subst; auto.
Qed.

(** [MGet] as the composition of its phases. *)
Lemma MGet_spec opts st now g s keys :
  let '(lruMissKeys, vm1, va1) := mGetFromLRUCache opts st now keys ∅ ∅ in
  let '(redisMissKeys, vm2, va2) := mGetFromRedisCache opts st now g lruMissKeys vm1 va1 in
  let st1 := warm opts st now vm2 lruMissKeys redisMissKeys in
  let '(r, st') := MGet opts st now g s keys in
  (valuesMap r, validsMap r) =
    merge_loaded (match loader_out opts redisMissKeys with
                  | Some (values, _) => values | None => ∅ end) (vm2, va2) /\
  redis_keys r = match RedisCacheOptions opts with Some _ => lruMissKeys | None => [] end /\
  loader_keys r = match loader_out opts redisMissKeys with
                  | Some _ => Some redisMissKeys | None => None end /\
  (err r, st') =
    match loader_out opts redisMissKeys with
    | None => (None, st1)
    | Some (_, Some e) => (Some (ErrLoader e), st1)
    | Some (values, None) =>
      let '(st2, e) := mSet opts st1 now s values
                         (filter (fun key => values !! key = None) redisMissKeys) in
      (e, st2)
    end.
Proof.
  unfold MGet. destruct keys as [|k0 ks].
  - assert (mGetFromLRUCache opts st now [] ∅ ∅ = ([], ∅, ∅)) as ->
      by (unfold mGetFromLRUCache; by destruct (LRUCacheOptions opts)).
    rewrite mGetFromRedisCache_nil. unfold warm, loader_out. simpl.
    rewrite merge_loaded_empty. by destruct (RedisCacheOptions opts).
  - destruct (mGetFromLRUCache opts st now (k0 :: ks) ∅ ∅) as [[m1 vm1] va1] eqn:E1.
    destruct m1 as [|x xs].
    + rewrite mGetFromRedisCache_nil. unfold warm, loader_out. simpl.
      rewrite merge_loaded_empty. by destruct (RedisCacheOptions opts).
    + destruct (mGetFromRedisCache opts st now g (x :: xs) vm1 va1) as [[m2 vm2] va2] eqn:E2.
      unfold warm, loader_out.
      destruct m2 as [|y ys].
      * simpl. rewrite merge_loaded_empty. done.
      * destruct (Loader opts) as [ld|]; [|simpl; by rewrite merge_loaded_empty].
        destruct (ld (y :: ys)) as [values lerr].
        destruct (merge_loaded values (vm2, va2)) as [vm3 va3].
        destruct lerr as [e|]; [done|].
        destruct (mSet _ _ _ _ _ _) as [st2 e2]. done.
Qed.

(** [MGet] as the composition of its phases, with the error and the final
    state given separately. *)
Lemma MGet_parts opts st now g s keys m1 vm1 va1 m2 vm2 va2 :
  mGetFromLRUCache opts st now keys ∅ ∅ = (m1, vm1, va1) ->
  mGetFromRedisCache opts st now g m1 vm1 va1 = (m2, vm2, va2) ->
  (valuesMap (MGet opts st now g s keys).1, validsMap (MGet opts st now g s keys).1) =
    merge_loaded (match loader_out opts m2 with
                  | Some (values, _) => values | None => ∅ end) (vm2, va2) /\
  redis_keys (MGet opts st now g s keys).1 =
    match RedisCacheOptions opts with Some _ => m1 | None => [] end /\
  loader_keys (MGet opts st now g s keys).1 =
    match loader_out opts m2 with Some _ => Some m2 | None => None end /\
  err (MGet opts st now g s keys).1 =
    match loader_out opts m2 with
    | None => None
    | Some (_, Some e) => Some (ErrLoader e)
    | Some (values, None) =>
      (mSet opts (warm opts st now vm2 m1 m2) now s values
         (filter (fun key => values !! key = None) m2)).2
    end /\
  (MGet opts st now g s keys).2 =
    match loader_out opts m2 with
    | Some (values, None) =>
      (mSet opts (warm opts st now vm2 m1 m2) now s values
         (filter (fun key => values !! key = None) m2)).1
    | _ => warm opts st now vm2 m1 m2
    end.
Proof.
  intros E1 E2. pose proof (MGet_spec opts st now g s keys) as HS.
  rewrite E1, E2 in HS. destruct (MGet opts st now g s keys) as [r st'].
  destruct HS as (HM & HRK & HLK & HE). simpl. do 3 (split; [done|]).
  destruct (loader_out opts m2) as [[values [e|]]|].
  - by injection HE as -> ->.
  - destruct (mSet _ _ _ _ _ _) as [st2 e2]. by injection HE as -> ->.
  - by injection HE as -> ->.
Qed.

(** ** Lemmas on the write paths *)

Lemma map_fold_insert_lookup {A B} (g : string -> string) (f : A -> B)
    (kvs : gmap string A) (m0 : gmap string B) k :
  (forall k1 k2, g k1 = g k2 -> k1 = k2) ->
  map_fold (fun k v m => <[g k := f v]> m) m0 kvs !! g k =
    match kvs !! k with Some v => Some (f v) | None => m0 !! g k end.
Proof.
  intros Hg. induction kvs as [|i x m Hi IH] using map_ind.
  - rewrite map_fold_empty. by rewrite lookup_empty.
  - rewrite map_fold_insert_L; [|intros j1 j2 z1 z2 y Hne _ _;
                                 apply insert_insert_ne; intros ?%Hg; done|done].
    rewrite !lookup_insert. destruct (decide (i = k)) as [->|Hne].
    + by rewrite decide_True.
    + rewrite decide_False; [done|]. intros ?%Hg. done.
Qed.

Lemma fold_left_insert_lookup {B} (g : string -> string) (x : B) keys
    (m0 : gmap string B) k :
  (forall k1 k2, g k1 = g k2 -> k1 = k2) ->
  fold_left (fun m key => <[g key := x]> m) keys m0 !! g k =
    if decide (k ∈ keys) then Some x else m0 !! g k.
Proof.
  intros Hg. revert m0. induction keys as [|key keys IH]; intros m0; cbn [fold_left].
  - rewrite decide_False; [done|apply not_elem_of_nil].
  - rewrite IH, lookup_insert.
    destruct (decide (key = k)) as [->|Hne].
    + rewrite (decide_True (P:=g k = g k)) by done.
      rewrite (decide_True (P:=k ∈ k :: keys)) by set_solver. by case_decide.
    + rewrite (decide_False (P:=g key = g k)) by (intros ?%Hg; done).
      destruct (decide (k ∈ keys)).
      * by rewrite (decide_True (P:=k ∈ key :: keys)) by set_solver.
      * by rewrite (decide_False (P:=k ∈ key :: keys)) by set_solver.
Qed.

Lemma string_app_inj_r (p a b : string) : p +:+ a = p +:+ b -> a = b.
Proof. induction p as [|c p IH]; simpl; [done|]. intros H. injection H. exact IH. Qed.

Lemma mkRedisKey_inj opts k1 k2 : mkRedisKey opts k1 = mkRedisKey opts k2 -> k1 = k2.
Proof.
  unfold mkRedisKey. destruct (RedisCacheOptions opts); [|done].
  intros H. apply string_app_inj_r in H. simpl in H. by injection H.
Qed.

Lemma mSetLRUCache_None opts st now kvs missKeys :
  LRUCacheOptions opts = None -> mSetLRUCache opts st now kvs missKeys = st.
Proof. intros H. unfold mSetLRUCache. by rewrite H. Qed.

Lemma mSetLRUCache_redisData opts st now kvs missKeys :
  redisData (mSetLRUCache opts st now kvs missKeys) = redisData st.
Proof. unfold mSetLRUCache. by destruct (LRUCacheOptions opts). Qed.

Lemma mSetLRUCache_lookup opts st now kvs missKeys lo k :
  LRUCacheOptions opts = Some lo ->
  lruData (mSetLRUCache opts st now kvs missKeys) !! k =
    if negb (MissTimeout lo =? 0) && bool_decide (k ∈ missKeys)
    then Some (mkItem missBytes (now + MissTimeout lo))
    else match kvs !! k with
         | Some v => Some (mkItem (proto_Marshal (lru_record now v)) (now + Timeout lo))
         | None => lruData st !! k
         end.
Proof.
  intros H. unfold mSetLRUCache. rewrite H. simpl.
  pose proof (map_fold_insert_lookup (fun k => k)
    (fun v => mkItem (proto_Marshal (lru_record now v)) (now + Timeout lo))
    kvs (lruData st) k (fun _ _ e => e)) as HM. cbv beta in HM.
  destruct (MissTimeout lo =? 0); simpl; [exact HM|].
  pose proof (fold_left_insert_lookup (fun k => k) (mkItem missBytes (now + MissTimeout lo))
    missKeys (map_fold (fun k v m =>
      <[k := mkItem (proto_Marshal (lru_record now v)) (now + Timeout lo)]> m) (lruData st) kvs)
    k (fun _ _ e => e)) as HL. cbv beta in HL.
  rewrite HL, HM. case_bool_decide; case_decide; tauto.
Qed.

Lemma mSetRedisCache_lruData opts st now s kvs missKeys :
  lruData (mSetRedisCache opts st now s kvs missKeys).1 = lruData st.
Proof. unfold mSetRedisCache. by destruct (RedisCacheOptions opts). Qed.

Lemma redis_set_eq now fate rkey b d rd f :
  redis_set now fate rkey b d (rd, f) =
    (partial_alter (set_result now fate rkey b d) rkey rd, f || set_failed now fate rkey d).
Proof.
  unfold redis_set, set_result, set_failed.
  destruct (redis_expiry now d) as [e|]; [|by rewrite partial_alter_id, orb_true_r].
  destruct (cmd_applied (fate rkey)); [|by rewrite partial_alter_id].
  reflexivity.
Qed.

Lemma set_result_idem now fate rkey b d old :
  set_result now fate rkey b d (set_result now fate rkey b d old) =
  set_result now fate rkey b d old.
Proof.
  unfold set_result. destruct (redis_expiry now d); [|done].
  by destruct (cmd_applied (fate rkey)).
Qed.

Lemma redis_set_comm now fate r1 r2 b1 b2 d a :
  r1 <> r2 ->
  redis_set now fate r1 b1 d (redis_set now fate r2 b2 d a) =
  redis_set now fate r2 b2 d (redis_set now fate r1 b1 d a).
Proof.
  intros Hne. destruct a as [rd f]. rewrite !redis_set_eq. f_equal.
  - apply map_eq; intros j. rewrite !lookup_partial_alter.
    repeat case_decide; subst; try done; rewrite ?lookup_partial_alter_ne; done.
  - by rewrite <- !orb_assoc, (orb_comm (set_failed _ _ r2 _)).
Qed.

(** The [SET]s of a map of values, at one key, and the failure flag. *)
Lemma redis_set_map_fold {A} now fate (g : string -> string) (h : A -> blob) d
    (kvs : gmap string A) a0 k :
  (forall k1 k2, g k1 = g k2 -> k1 = k2) ->
  (map_fold (fun k v a => redis_set now fate (g k) (h v) d a) a0 kvs).1 !! g k =
    match kvs !! k with
    | Some v => set_result now fate (g k) (h v) d (a0.1 !! g k)
    | None => a0.1 !! g k
    end /\
  ((map_fold (fun k v a => redis_set now fate (g k) (h v) d a) a0 kvs).2 = true <->
   a0.2 = true \/ exists j v, kvs !! j = Some v /\ set_failed now fate (g j) d = true).
Proof.
  intros Hg. induction kvs as [|i x m Hi IH] using map_ind.
  - rewrite map_fold_empty, lookup_empty. split; [done|].
    split; [by left|]. intros [?|(j & v & Hj & _)]; [done|by rewrite lookup_empty in Hj].
  - rewrite map_fold_insert_L;
      [|intros j1 j2 z1 z2 y Hne _ _; apply redis_set_comm; intros ?%Hg; done|done].
    destruct (map_fold _ a0 m) as [rd f] eqn:EM. destruct IH as [IH1 IH2].
    rewrite redis_set_eq. simpl in IH1, IH2 |- *. split.
    + rewrite lookup_partial_alter, lookup_insert.
      destruct (decide (i = k)) as [->|Hne].
      * rewrite (decide_True (P:=g k = g k)) by done. by rewrite IH1, Hi.
      * rewrite (decide_False (P:=g i = g k)) by (intros ?%Hg; done). exact IH1.
    + rewrite orb_true_iff, IH2. split.
      * intros [[?|(j & v & Hj & Hf)]|Hf]; [by left| |].
        -- right. exists j, v. split; [|done]. rewrite lookup_insert_ne; [done|].
           intros ->. congruence.
        -- right. exists i, x. split; [apply lookup_insert_eq|done].
      * intros [?|(j & v & Hj & Hf)]; [by left; left|].
        rewrite lookup_insert in Hj. case_decide as Hij.
        -- subst j. injection Hj as <-. by right.
        -- left. right. by exists j, v.
Qed.

(** The [SET]s of a list of keys to one value, at one key, and the failure
    flag. *)
Lemma redis_set_fold_left now fate (g : string -> string) b d keys a0 k :
  (forall k1 k2, g k1 = g k2 -> k1 = k2) ->
  (fold_left (fun a key => redis_set now fate (g key) b d a) keys a0).1 !! g k =
    (if decide (k ∈ keys) then set_result now fate (g k) b d (a0.1 !! g k) else a0.1 !! g k) /\
  ((fold_left (fun a key => redis_set now fate (g key) b d a) keys a0).2 = true <->
   a0.2 = true \/ exists j, j ∈ keys /\ set_failed now fate (g j) d = true).
Proof.
  intros Hg. revert a0. induction keys as [|key keys IH]; intros [rd f]; cbn [fold_left].
  - rewrite decide_False by apply not_elem_of_nil. split; [done|].
    split; [by left|]. intros [?|(j & Hj & _)]; [done|set_solver].
  - rewrite redis_set_eq. destruct (IH (partial_alter (set_result now fate (g key) b d) (g key) rd,
                                       f || set_failed now fate (g key) d)) as [IH1 IH2].
    split.
    + rewrite IH1. simpl. rewrite lookup_partial_alter.
      destruct (decide (key = k)) as [->|Hne].
      * rewrite (decide_True (P:=g k = g k)) by done.
        rewrite (decide_True (P:=k ∈ k :: keys)) by set_solver.
        case_decide; [apply set_result_idem|done].
      * rewrite (decide_False (P:=g key = g k)) by (intros ?%Hg; done).
        destruct (decide (k ∈ keys)).
        -- by rewrite (decide_True (P:=k ∈ key :: keys)) by set_solver.
        -- by rewrite (decide_False (P:=k ∈ key :: keys)) by set_solver.
    + rewrite IH2. simpl. rewrite orb_true_iff. split.
      * intros [[?|?]|(j & Hj & Hf)]; [by left|right; exists key; split; [set_solver|done]|].
        right. exists j. split; [set_solver|done].
      * intros [?|(j & Hj & Hf)]; [by left; left|].
        apply elem_of_cons in Hj as [->|Hj]; [by left; right|].
        right. by exists j.
Qed.

Lemma mSetRedisCache_lookup opts st now s kvs missKeys o k :
  RedisCacheOptions opts = Some o ->
  redisData (mSetRedisCache opts st now s kvs missKeys).1 !! mkRedisKey opts k =
    let base := match kvs !! k with
                | Some v => set_result now s (mkRedisKey opts k)
                              (proto_Marshal (redis_record opts now v)) (HardTimeout o)
                              (redisData st !! mkRedisKey opts k)
                | None => redisData st !! mkRedisKey opts k
                end in
    if (Millisecond <=? RedisMissTimeout o) && bool_decide (k ∈ missKeys)
    then set_result now s (mkRedisKey opts k) missBytes (RedisMissTimeout o) base
    else base.
Proof.
  intros H. unfold mSetRedisCache. rewrite H. cbn [redisData fst].
  destruct (redis_set_map_fold now s (mkRedisKey opts)
    (fun v => proto_Marshal (redis_record opts now v)) (HardTimeout o) kvs
    (redisData st, false) k (mkRedisKey_inj opts)) as [HM _].
  simpl in HM. destruct (Millisecond <=? RedisMissTimeout o); simpl; [|exact HM].
  destruct (redis_set_fold_left now s (mkRedisKey opts) missBytes (RedisMissTimeout o) missKeys
    (map_fold (fun k v a => redis_set now s (mkRedisKey opts k)
                 (proto_Marshal (redis_record opts now v)) (HardTimeout o) a)
       (redisData st, false) kvs) k (mkRedisKey_inj opts)) as [HL _].
  rewrite HL, HM. by case_decide; case_bool_decide.
Qed.

(** The error of the pipeline: none exactly when every [SET] succeeds. *)
Lemma mSetRedisCache_err opts st now s kvs missKeys o :
  RedisCacheOptions opts = Some o ->
  ((mSetRedisCache opts st now s kvs missKeys).2 = None /\
   (forall k v, kvs !! k = Some v -> set_failed now s (mkRedisKey opts k) (HardTimeout o) = false) /\
   (Millisecond <= RedisMissTimeout o -> forall k, k ∈ missKeys ->
      set_failed now s (mkRedisKey opts k) (RedisMissTimeout o) = false)) \/
  ((mSetRedisCache opts st now s kvs missKeys).2 = Some ErrRedisWrite /\
   ((exists k v, kvs !! k = Some v /\ set_failed now s (mkRedisKey opts k) (HardTimeout o) = true) \/
    (Millisecond <= RedisMissTimeout o /\
     exists k, k ∈ missKeys /\ set_failed now s (mkRedisKey opts k) (RedisMissTimeout o) = true))).
Proof.
  intros H. unfold mSetRedisCache. rewrite H. cbn [snd].
  destruct (redis_set_map_fold now s (mkRedisKey opts)
    (fun v => proto_Marshal (redis_record opts now v)) (HardTimeout o) kvs
    (redisData st, false) "" (mkRedisKey_inj opts)) as [_ HM].
  simpl in HM.
  set (a1 := map_fold _ (redisData st, false) kvs) in HM |- *.
  assert (forall b, b = true <-> False \/ b = true) as Hb by (intros; tauto).
  destruct (Millisecond <=? RedisMissTimeout o) eqn:Ems.
  - apply Z.leb_le in Ems.
    destruct (redis_set_fold_left now s (mkRedisKey opts) missBytes (RedisMissTimeout o) missKeys
      a1 "" (mkRedisKey_inj opts)) as [_ HL].
    destruct (fold_left _ missKeys a1).2 eqn:E2.
    + right. split; [done|]. apply proj1 in HL. specialize (HL eq_refl).
      destruct HL as [HL|HL]; [|by right]. left. apply HM in HL as [?|HL]; [done|exact HL].
    + left. split; [done|]. split.
      * intros k v Hk. destruct (set_failed _ _ _ _) eqn:Ef; [|done].
        assert (a1.2 = true) as Ha by (apply HM; right; by exists k, v).
        assert (false = true); [apply HL; by left|done].
      * intros _ k Hk. destruct (set_failed _ _ _ _) eqn:Ef; [|done].
        assert (false = true); [apply HL; right; by exists k|done].
  - destruct a1.2 eqn:E2.
    + right. split; [done|]. left. apply proj1 in HM. specialize (HM eq_refl).
      destruct HM as [?|HM]; [done|exact HM].
    + left. split; [done|]. split.
      * intros k v Hk. destruct (set_failed _ _ _ _) eqn:Ef; [|done].
        assert (false = true); [apply HM; right; by exists k, v|done].
      * intros Hle. apply Z.leb_gt in Ems. lia.
Qed.

Lemma mSet_eq opts st now s kvs missKeys :
  missKeys <> [] ->
  mSet opts st now s kvs missKeys =
    mSetRedisCache opts (mSetLRUCache opts st now kvs missKeys) now s kvs missKeys.
Proof.
  intros H. unfold mSet. rewrite (bool_decide_eq_false_2 (missKeys = [])); [|done].
  by rewrite andb_false_r.
Qed.

Lemma mSet_eq_kvs opts st now s kvs missKeys :
  kvs <> ∅ ->
  mSet opts st now s kvs missKeys =
    mSetRedisCache opts (mSetLRUCache opts st now kvs missKeys) now s kvs missKeys.
Proof.
  intros H. unfold mSet. by rewrite (bool_decide_eq_false_2 (kvs = ∅)).
Qed.

Lemma split_hits_gen (vm : gmap string bytes) (hits : list string)
    (rv0 : gmap string bytes) (ek0 : list string) :
  let '(rv, ek) := fold_left (fun '(redisValues, emptyKeys) (key : string) =>
      match vm !! key with
      | Some v => (<[key := v]> redisValues, emptyKeys)
      | None => (redisValues, emptyKeys ++ [key])
      end) hits (rv0, ek0) in
  (forall k : string, k ∉ hits -> rv !! k = rv0 !! k) /\
  (forall k : string, k ∈ ek -> k ∈ ek0 \/ k ∈ hits).
Proof.
  revert rv0 ek0. induction hits as [|h hits IH]; intros rv0 ek0; simpl; [split; intros; auto|].
  destruct (vm !! h) as [b|] eqn:E.
  - specialize (IH (<[h := b]> rv0) ek0).
    destruct (fold_left _ hits _) as [rv ek]. destruct IH as [H1 H2]. split.
    + intros k Hk. rewrite H1 by set_solver. rewrite lookup_insert_ne; set_solver.
    + intros k Hk. apply H2 in Hk. set_solver.
  - specialize (IH rv0 (ek0 ++ [h])).
    destruct (fold_left _ hits _) as [rv ek]. destruct IH as [H1 H2]. split.
    + intros k Hk. apply H1. set_solver.
    + intros k Hk. apply H2 in Hk. set_solver.
Qed.

Lemma split_hits_other vm hits k :
  k ∉ hits -> let '(rv, ek) := split_hits vm hits in rv !! k = None /\ k ∉ ek.
Proof.
  intros Hk. unfold split_hits. pose proof (split_hits_gen vm hits ∅ []) as H.
  destruct (fold_left _ _ _) as [rv ek]. destruct H as [H1 H2]. split.
  - rewrite H1; [apply lookup_empty|done].
  - intros He. apply H2 in He. set_solver.
Qed.

Lemma warm_redisData opts st now vm lruMissKeys redisMissKeys :
  redisData (warm opts st now vm lruMissKeys redisMissKeys) = redisData st.
Proof.
  unfold warm. destruct (substract _ _); [done|].
  destruct (split_hits _ _). apply mSetLRUCache_redisData.
Qed.

Lemma warm_lookup_other opts st now vm lruMissKeys redisMissKeys k :
  k ∈ redisMissKeys ->
  lruData (warm opts st now vm lruMissKeys redisMissKeys) !! k = lruData st !! k.
Proof.
  intros Hk. unfold warm.
  assert (k ∉ substract lruMissKeys redisMissKeys) as Hn.
  { unfold substract. rewrite list_elem_of_filter. tauto. }
  destruct (substract _ _) as [|h hs]; [done|].
  pose proof (split_hits_other vm (h :: hs) k Hn) as HS.
  destruct (split_hits _ _) as [rv ek]. destruct HS as [H1 H2].
  destruct (LRUCacheOptions opts) as [lo|] eqn:HL; [|by rewrite mSetLRUCache_None].
  rewrite (mSetLRUCache_lookup _ _ _ _ _ lo); [|done]. rewrite H1.
  by rewrite bool_decide_eq_false_2, andb_false_r.
Qed.

(** ** Facts about the per-key views *)

Lemma lru_view_ext st st' now k :
  lruData st !! k = lruData st' !! k -> lru_view st now k = lru_view st' now k.
Proof. intros H. unfold lru_view. by rewrite H. Qed.

Lemma lru_view_valid st now k :
  (lru_view st now k).2 = true -> is_Some (lru_view st now k).1.2.
Proof.
  unfold lru_view. destruct (lruData st !! k) as [[[] e]|]; simpl; try discriminate.
  intros _. by eexists.
Qed.

Lemma lru_view_miss_invalid st now k :
  (lru_view st now k).1.1 = true -> (lru_view st now k).2 = false.
Proof.
  unfold lru_view. destruct (lruData st !! k) as [[[] e]|]; simpl; try done.
  intros ->. done.
Qed.

Lemma lru_view_mono st now1 now2 k :
  (lru_view st now1 k).1.1 = true -> now1 <= now2 ->
  (lru_view st now2 k).1.1 = true.
Proof.
  unfold lru_view, item_Expired. destruct (lruData st !! k) as [[[] e]|]; simpl; try done;
    intros H1 H2; apply Z.ltb_lt in H1; apply Z.ltb_lt; lia.
Qed.

Lemma redis_view_valid o now got x :
  (redis_view o now got).2 = true -> is_Some ((redis_view o now got).1.2 x).
Proof.
  unfold redis_view. destruct got as [[]|]; simpl; try discriminate.
  destruct (_ <=? _); simpl; [by eexists|discriminate].
Qed.

Lemma redis_view_keep o now got x :
  is_Some x -> is_Some ((redis_view o now got).1.2 x).
Proof.
  unfold redis_view. destruct got as [[]|]; simpl; try done.
  destruct (_ <=? _); simpl; [by eexists|]. intros [y ->]. by eexists.
Qed.

Lemma redis_view_miss_invalid o now got :
  (redis_view o now got).1.1 = true -> (redis_view o now got).2 = false.
Proof.
  unfold redis_view. destruct got as [[]|]; simpl; try done.
  by destruct (_ <=? _).
Qed.

Lemma mGetFromLRUCache_facts opts st now keys vm0 va0 m vm va :
  mGetFromLRUCache opts st now keys vm0 va0 = (m, vm, va) ->
  (forall k, k ∈ m -> k ∈ keys) /\
  (forall k, k ∉ keys -> vm !! k = vm0 !! k /\ va !! k = va0 !! k).
Proof.
  intros E. destruct (LRUCacheOptions opts) as [lo|] eqn:HL.
  - pose proof (mGetFromLRUCache_Some opts st now keys vm0 va0 lo HL) as HS.
    rewrite E in HS. destruct HS as (-> & Hv & Ha). split.
    + intros k. rewrite list_elem_of_filter. tauto.
    + intros k Hk. rewrite Hv, Ha, !decide_False by done. done.
  - rewrite mGetFromLRUCache_None in E by done. injection E as <- <- <-. done.
Qed.

Lemma mGetFromRedisCache_facts opts st now g keys vm0 va0 m vm va :
  mGetFromRedisCache opts st now g keys vm0 va0 = (m, vm, va) ->
  (forall k, k ∈ m -> k ∈ keys) /\
  (forall k, k ∉ keys -> vm !! k = vm0 !! k /\ va !! k = va0 !! k).
Proof.
  intros E. destruct (RedisCacheOptions opts) as [o|] eqn:HR.
  - pose proof (mGetFromRedisCache_Some opts st now g keys vm0 va0 o HR) as HS.
    rewrite E in HS. destruct HS as (-> & Hv & Ha). split.
    + intros k. rewrite list_elem_of_filter. tauto.
    + intros k Hk. rewrite Hv, Ha, !decide_False by done. done.
  - rewrite mGetFromRedisCache_None in E by done. injection E as <- <- <-. done.
Qed.

(** Keys carried on by a pass are not marked valid by it. *)
Lemma mGetFromLRUCache_miss_invalid opts st now keys m vm va k :
  mGetFromLRUCache opts st now keys ∅ ∅ = (m, vm, va) -> k ∈ m -> va !! k = None.
Proof.
  intros E Hk. destruct (LRUCacheOptions opts) as [lo|] eqn:HL.
  - pose proof (mGetFromLRUCache_Some opts st now keys ∅ ∅ lo HL) as HS.
    rewrite E in HS. destruct HS as (-> & _ & Ha).
    apply list_elem_of_filter in Hk as [Hm Hk].
    rewrite Ha, lru_view_miss_invalid by done. case_decide; apply lookup_empty.
  - rewrite mGetFromLRUCache_None in E by done. injection E as <- <- <-.
    apply lookup_empty.
Qed.

Lemma mGetFromRedisCache_miss_invalid opts st now g keys vm0 va0 m vm va k :
  mGetFromRedisCache opts st now g keys vm0 va0 = (m, vm, va) -> k ∈ m ->
  va !! k = va0 !! k.
Proof.
  intros E Hk. destruct (RedisCacheOptions opts) as [o|] eqn:HR.
  - pose proof (mGetFromRedisCache_Some opts st now g keys vm0 va0 o HR) as HS.
    rewrite E in HS. destruct HS as (-> & _ & Ha).
    apply list_elem_of_filter in Hk as [Hm Hk].
    rewrite Ha, redis_view_miss_invalid by done. by case_decide.
  - rewrite mGetFromRedisCache_None in E by done. by injection E as <- <- <-.
Qed.

(** The entry the loader returned in a call, in terms of the passes. *)
Lemma MGet_loaded_entry opts st now g s keys k m1 vm1 va1 m2 vm2 va2 :
  mGetFromLRUCache opts st now keys ∅ ∅ = (m1, vm1, va1) ->
  mGetFromRedisCache opts st now g m1 vm1 va1 = (m2, vm2, va2) ->
  loaded_entry opts (MGet opts st now g s keys).1 k =
    match loader_out opts m2 with Some (values, _) => values !! k | None => None end.
Proof.
  intros E1 E2. destruct (MGet_parts opts st now g s keys _ _ _ _ _ _ E1 E2)
    as (_ & _ & HLK & _). unfold loaded_entry. rewrite HLK.
  unfold loader_out. destruct m2 as [|y ys]; [by destruct (Loader opts)|].
  destruct (Loader opts) as [ld|]; [|done]. by destruct (ld (y :: ys)).
Qed.

(** [MGet]'s maps at a key: the loader's entry if it returned one, otherwise
    what the passes recorded. *)
Lemma MGet_maps_loaded opts st now g s keys k m1 vm1 va1 m2 vm2 va2 :
  mGetFromLRUCache opts st now keys ∅ ∅ = (m1, vm1, va1) ->
  mGetFromRedisCache opts st now g m1 vm1 va1 = (m2, vm2, va2) ->
  valuesMap (MGet opts st now g s keys).1 !! k =
    match loaded_entry opts (MGet opts st now g s keys).1 k with
    | Some v => Some v | None => vm2 !! k end /\
  validsMap (MGet opts st now g s keys).1 !! k =
    match loaded_entry opts (MGet opts st now g s keys).1 k with
    | Some _ => Some true | None => va2 !! k end.
Proof.
  intros E1 E2. rewrite (MGet_loaded_entry opts st now g s keys k _ _ _ _ _ _ E1 E2).
  destruct (MGet_parts opts st now g s keys _ _ _ _ _ _ E1 E2) as (HM & _).
  pose proof (merge_loaded_lookup
    (match loader_out opts m2 with Some (values, _) => values | None => ∅ end) vm2 va2) as HL.
  rewrite <- HM in HL. destruct HL as [H1 H2]. rewrite H1, H2.
  destruct (loader_out opts m2) as [[values ?]|]; [done|by rewrite lookup_empty].
Qed.

(** [MGet]'s maps at a key the loader returns nothing for. *)
Lemma MGet_maps_at opts st now g s keys k m1 vm1 va1 m2 vm2 va2 :
  mGetFromLRUCache opts st now keys ∅ ∅ = (m1, vm1, va1) ->
  mGetFromRedisCache opts st now g m1 vm1 va1 = (m2, vm2, va2) ->
  match loader_out opts m2 with Some (values, _) => values | None => ∅ end !! k = None ->
  valuesMap (MGet opts st now g s keys).1 !! k = vm2 !! k /\
  validsMap (MGet opts st now g s keys).1 !! k = va2 !! k.
Proof.
  intros E1 E2 Hk. pose proof (MGet_spec opts st now g s keys) as HS.
  rewrite E1, E2 in HS. destruct (MGet opts st now g s keys) as [r st'].
  destruct HS as [HM _]. simpl.
  pose proof (merge_loaded_lookup
    (match loader_out opts m2 with Some (values, _) => values | None => ∅ end) vm2 va2) as HL.
  rewrite <- HM in HL. destruct HL as [H1 H2]. by rewrite H1, H2, Hk.
Qed.

(** ** C9: a valid key always has a value *)

(** Claim C9: in the maps [MGet] returns, a key marked valid always has an
    entry in the value map. *)
Theorem MGet_valid_implies_value opts st now g s keys k :
  validsMap (MGet opts st now g s keys).1 !! k = Some true ->
  is_Some (valuesMap (MGet opts st now g s keys).1 !! k).
Proof.
  pose proof (MGet_spec opts st now g s keys) as HS.
  destruct (mGetFromLRUCache opts st now keys ∅ ∅) as [[m1 vm1] va1] eqn:E1.
  destruct (mGetFromRedisCache opts st now g m1 vm1 va1) as [[m2 vm2] va2] eqn:E2.
  destruct (MGet opts st now g s keys) as [r st']. destruct HS as [HM _]. simpl.
  (* the local pass *)
  assert (forall j, va1 !! j = Some true -> is_Some (vm1 !! j)) as I1.
  { intros j. destruct (LRUCacheOptions opts) as [lo|] eqn:HL.
    - pose proof (mGetFromLRUCache_Some opts st now keys ∅ ∅ lo HL) as HS.
      rewrite E1 in HS. destruct HS as (_ & Hv & Ha). rewrite Ha, Hv.
      case_decide; [|by rewrite lookup_empty].
      destruct (lru_view st now j) as [[mb vb] ab] eqn:EV. simpl.
      destruct ab; [|by rewrite lookup_empty].
      pose proof (lru_view_valid st now j) as HV. rewrite EV in HV. simpl in HV.
      destruct (HV eq_refl) as [r' ->]. by eexists.
    - rewrite mGetFromLRUCache_None in E1 by done. injection E1 as _ <- <-.
      by rewrite lookup_empty. }
  (* the remote pass *)
  assert (forall j, va2 !! j = Some true -> is_Some (vm2 !! j)) as I2.
  { intros j. destruct (RedisCacheOptions opts) as [o|] eqn:HR.
    - pose proof (mGetFromRedisCache_Some opts st now g m1 vm1 va1 o HR) as HS.
      rewrite E2 in HS. destruct HS as (_ & Hv & Ha). rewrite Ha, Hv.
      case_decide; [|apply I1].
      destruct (redis_view o now (redis_cmd opts st now g j)).2 eqn:EA.
      + intros _. by apply redis_view_valid.
      + intros Hj. by apply redis_view_keep, I1.
    - rewrite mGetFromRedisCache_None in E2 by done. injection E2 as _ <- <-. apply I1. }
  (* the loader merge *)
  pose proof (merge_loaded_lookup
    (match loader_out opts m2 with Some (values, _) => values | None => ∅ end) vm2 va2) as HL.
  rewrite <- HM in HL. destruct HL as [H1 H2]. rewrite H1, H2.
  destruct (_ !! k); [by eexists|]. apply I2.
Qed.

(** ** C3: a fresh local record short-circuits the other tiers *)

(** Claim C3 (as amended): a key with an unexpired, decodable, non-marker
    local record is sent neither to the remote GET pipeline nor to the
    loader, and is returned with valid=true: with its local payload, unless
    the loader, called in the same call for other keys, returns an entry for
    it, which then replaces the payload. *)
Theorem MGet_local_fresh_short_circuits opts st now g s keys k lo it d :
  LRUCacheOptions opts = Some lo -> k ∈ keys ->
  lruData st !! k = Some it -> item_value it = BlobProto d ->
  item_Expired now it = false ->
  (k ∉ redis_keys (MGet opts st now g s keys).1) /\
  (forall ks, loader_keys (MGet opts st now g s keys).1 = Some ks -> k ∉ ks) /\
  valuesMap (MGet opts st now g s keys).1 !! k =
    Some (match loaded_entry opts (MGet opts st now g s keys).1 k with
          | Some v => v | None => Raw d end) /\
  validsMap (MGet opts st now g s keys).1 !! k = Some true.
Proof.
  intros HL Hk Hit Hv Hx.
  assert (lru_view st now k = (false, Some (Raw d), true)) as EV.
  { unfold lru_view. rewrite Hit, Hv. simpl. by rewrite Hx. }
  destruct (mGetFromLRUCache opts st now keys ∅ ∅) as [[m1 vm1] va1] eqn:E1.
  destruct (mGetFromRedisCache opts st now g m1 vm1 va1) as [[m2 vm2] va2] eqn:E2.
  pose proof (mGetFromLRUCache_Some opts st now keys ∅ ∅ lo HL) as HS1.
  rewrite E1 in HS1. destruct HS1 as (Hm1 & Hv1 & Ha1).
  assert (k ∉ m1) as Hk1.
  { rewrite Hm1, list_elem_of_filter, EV. simpl. intros [? _]. discriminate. }
  pose proof (mGetFromRedisCache_facts _ _ _ _ _ _ _ _ _ _ E2) as [Hsub Hkeep].
  destruct (MGet_maps_loaded opts st now g s keys k _ _ _ _ _ _ E1 E2) as [HV HA].
  destruct (MGet_parts opts st now g s keys _ _ _ _ _ _ E1 E2) as (_ & HRK & HLK & _).
  split; [|split; [|split]].
  - rewrite HRK. destruct (RedisCacheOptions opts); [done|apply not_elem_of_nil].
  - intros ks. rewrite HLK. destruct (loader_out opts m2); [|discriminate].
    intros [= <-]. intros Hin. by apply Hk1, Hsub.
  - rewrite HV. destruct (loaded_entry _ _ k); [done|].
    destruct (Hkeep k Hk1) as [-> _]. by rewrite Hv1, decide_True, EV.
  - rewrite HA. destruct (loaded_entry _ _ k); [done|].
    destruct (Hkeep k Hk1) as [_ ->]. by rewrite Ha1, decide_True, EV.
Qed.

(** ** C1: a local stale candidate against a remote record *)

(** Claim C1 (as amended): when a key enters the remote pass with a local
    stale candidate and the remote record is soft-expired, the remote payload
    does not replace the candidate: the candidate is returned, not valid.
    When the remote record is fresh, its decompressed payload replaces the
    candidate and is returned with valid=true. Either way, an entry the
    loader returns for the key in the same call replaces the value and is
    returned with valid=true. *)
Theorem MGet_local_stale_vs_remote opts st now g s keys k lo o it d data :
  LRUCacheOptions opts = Some lo -> RedisCacheOptions opts = Some o -> k ∈ keys ->
  lruData st !! k = Some it -> item_value it = BlobProto d ->
  item_Expired now it = true ->
  redis_cmd opts st now g k = Some (BlobProto data) ->
  match loaded_entry opts (MGet opts st now g s keys).1 k with
  | Some v =>
    valuesMap (MGet opts st now g s keys).1 !! k = Some v /\
    validsMap (MGet opts st now g s keys).1 !! k = Some true
  | None =>
    if now - ModifyTime data * Second <=? SoftTimeout o
    then valuesMap (MGet opts st now g s keys).1 !! k = Some (remote_raw data) /\
         validsMap (MGet opts st now g s keys).1 !! k = Some true
    else valuesMap (MGet opts st now g s keys).1 !! k = Some (Raw d) /\
         validsMap (MGet opts st now g s keys).1 !! k = None
  end.
Proof.
  intros HL HR Hk Hit Hv Hx Hcmd.
  assert (lru_view st now k = (true, Some (Raw d), false)) as EV.
  { unfold lru_view. rewrite Hit, Hv. simpl. by rewrite Hx. }
  destruct (mGetFromLRUCache opts st now keys ∅ ∅) as [[m1 vm1] va1] eqn:E1.
  destruct (mGetFromRedisCache opts st now g m1 vm1 va1) as [[m2 vm2] va2] eqn:E2.
  pose proof (mGetFromLRUCache_Some opts st now keys ∅ ∅ lo HL) as HS1.
  rewrite E1 in HS1. destruct HS1 as (Hm1 & Hv1 & Ha1).
  assert (k ∈ m1) as Hk1.
  { rewrite Hm1, list_elem_of_filter, EV. done. }
  pose proof (mGetFromRedisCache_Some opts st now g m1 vm1 va1 o HR) as HS2.
  rewrite E2 in HS2. destruct HS2 as (_ & Hv2 & Ha2).
  destruct (MGet_maps_loaded opts st now g s keys k _ _ _ _ _ _ E1 E2) as [HV HA].
  rewrite HV, HA. destruct (loaded_entry _ _ k) as [v|]; [done|].
  rewrite Hv2, Ha2, !decide_True by done.
  rewrite Hv1, Ha1, !decide_True by done. rewrite EV, Hcmd. simpl.
  unfold redis_view. simpl.
  destruct (now - ModifyTime data * Second <=? SoftTimeout o); simpl; [done|].
  split; [done|]. apply lookup_empty.
Qed.

(** ** C5: errors keep the assembled maps *)

(** Claim C5: when the loader is called, the returned maps are those
    assembled by the local and remote passes with the loader's entries
    merged in, whether the loader fails (its error is returned) or the
    write-back fails (its error is returned); in particular an expired local
    record with nothing in the remote tier is returned, not valid, alongside
    the loader's error. *)
Theorem MGet_error_keeps_maps opts st now g s keys :
  (forall m1 vm1 va1 m2 vm2 va2 values lerr,
     mGetFromLRUCache opts st now keys ∅ ∅ = (m1, vm1, va1) ->
     mGetFromRedisCache opts st now g m1 vm1 va1 = (m2, vm2, va2) ->
     loader_out opts m2 = Some (values, lerr) ->
     (valuesMap (MGet opts st now g s keys).1, validsMap (MGet opts st now g s keys).1) =
       merge_loaded values (vm2, va2) /\
     err (MGet opts st now g s keys).1 =
       match lerr with
       | Some e => Some (ErrLoader e)
       | None => (mSet opts (warm opts st now vm2 m1 m2) now s values
                   (filter (fun key => values !! key = None) m2)).2
       end) /\
  (forall k lo it d ld e,
     LRUCacheOptions opts = Some lo -> k ∈ keys ->
     lruData st !! k = Some it -> item_value it = BlobProto d ->
     item_Expired now it = true ->
     (RedisCacheOptions opts = None \/ redis_cmd opts st now g k = None) ->
     Loader opts = Some ld -> (forall ks, (ld ks).1 !! k = None /\ (ld ks).2 = Some e) ->
     valuesMap (MGet opts st now g s keys).1 !! k = Some (Raw d) /\
     validsMap (MGet opts st now g s keys).1 !! k = None /\
     err (MGet opts st now g s keys).1 = Some (ErrLoader e)).
Proof.
  assert (forall m1 vm1 va1 m2 vm2 va2 values lerr,
     mGetFromLRUCache opts st now keys ∅ ∅ = (m1, vm1, va1) ->
     mGetFromRedisCache opts st now g m1 vm1 va1 = (m2, vm2, va2) ->
     loader_out opts m2 = Some (values, lerr) ->
     (valuesMap (MGet opts st now g s keys).1, validsMap (MGet opts st now g s keys).1) =
       merge_loaded values (vm2, va2) /\
     err (MGet opts st now g s keys).1 =
       match lerr with
       | Some e => Some (ErrLoader e)
       | None => (mSet opts (warm opts st now vm2 m1 m2) now s values
                   (filter (fun key => values !! key = None) m2)).2
       end) as HA.
  { intros m1 vm1 va1 m2 vm2 va2 values lerr E1 E2 Hlo.
    pose proof (MGet_spec opts st now g s keys) as HS.
    rewrite E1, E2, Hlo in HS. destruct (MGet opts st now g s keys) as [r st'].
    destruct HS as (HM & _ & _ & HE). simpl. split; [done|].
    destruct lerr as [e|]; [by injection HE|].
    destruct (mSet _ _ _ _ _ _) as [st2 e2]. by injection HE. }
  split; [exact HA|].
  intros k lo it d ld e HL Hk Hit Hv Hx Hr Hld Hle.
  assert (lru_view st now k = (true, Some (Raw d), false)) as EV.
  { unfold lru_view. rewrite Hit, Hv. simpl. by rewrite Hx. }
  destruct (mGetFromLRUCache opts st now keys ∅ ∅) as [[m1 vm1] va1] eqn:E1.
  destruct (mGetFromRedisCache opts st now g m1 vm1 va1) as [[m2 vm2] va2] eqn:E2.
  pose proof (mGetFromLRUCache_Some opts st now keys ∅ ∅ lo HL) as HS1.
  rewrite E1 in HS1. destruct HS1 as (Hm1 & Hv1 & Ha1).
  assert (k ∈ m1) as Hk1 by (rewrite Hm1, list_elem_of_filter, EV; done).
  assert (k ∈ m2 /\ vm2 !! k = vm1 !! k /\ va2 !! k = va1 !! k) as (Hk2 & Hv2 & Ha2).
  { destruct (RedisCacheOptions opts) as [o|] eqn:HR.
    - destruct Hr as [Hr|Hr]; [discriminate|].
      pose proof (mGetFromRedisCache_Some opts st now g m1 vm1 va1 o HR) as HS2.
      rewrite E2 in HS2. destruct HS2 as (Hm2 & Hv2 & Ha2).
      rewrite Hm2, list_elem_of_filter, Hv2, Ha2, !decide_True by done.
      rewrite Hr. done.
    - rewrite mGetFromRedisCache_None in E2 by done. by injection E2 as <- <- <-. }
  assert (loader_out opts m2 = Some (ld m2)) as Hlo.
  { unfold loader_out. rewrite Hld. destruct m2; [set_solver|done]. }
  destruct (Hle m2) as [Hlk Hle2].
  destruct (ld m2) as [values lerr] eqn:Eld. simpl in Hlk, Hle2. subst lerr.
  destruct (HA _ _ _ _ _ _ _ _ eq_refl E2 Hlo) as [_ ->].
  destruct (MGet_maps_at opts st now g s keys k _ _ _ _ _ _ E1 E2) as [-> ->].
  { by rewrite Hlo. }
  rewrite Hv2, Ha2, Hv1, Ha1, !decide_True by done. rewrite EV. simpl.
  split; [done|]. split; [apply lookup_empty|done].
Qed.

(** ** C2: a loader miss does not drop a stale candidate *)

(** Claim C2 (as amended): when the loader succeeds but returns no entry for
    a key it was asked for, the returned value map keeps whatever candidate
    the local and remote passes recorded for that key (a stale value, if
    any), and the key is not marked valid. *)
Theorem MGet_loader_miss_keeps_candidate opts st now g s keys k m1 vm1 va1 m2 vm2 va2 values :
  mGetFromLRUCache opts st now keys ∅ ∅ = (m1, vm1, va1) ->
  mGetFromRedisCache opts st now g m1 vm1 va1 = (m2, vm2, va2) ->
  loader_out opts m2 = Some (values, None) -> k ∈ m2 -> values !! k = None ->
  loader_keys (MGet opts st now g s keys).1 = Some m2 /\
  valuesMap (MGet opts st now g s keys).1 !! k = vm2 !! k /\
  validsMap (MGet opts st now g s keys).1 !! k = None.
Proof.
  intros E1 E2 Hlo Hk Hv.
  destruct (MGet_maps_at opts st now g s keys k _ _ _ _ _ _ E1 E2) as [-> ->].
  { by rewrite Hlo. }
  pose proof (MGet_spec opts st now g s keys) as HS.
  rewrite E1, E2, Hlo in HS. destruct (MGet opts st now g s keys) as [r st'].
  destruct HS as (_ & _ & HLK & _). split; [done|]. split; [done|].
  rewrite (mGetFromRedisCache_miss_invalid _ _ _ _ _ _ _ _ _ _ k E2 Hk).
  apply (mGetFromLRUCache_miss_invalid _ _ _ _ _ _ _ _ E1).
  by apply (mGetFromRedisCache_facts _ _ _ _ _ _ _ _ _ _ E2).
Qed.

(** ** Lemmas for the write-path claims *)

Lemma proto_Marshal_time d : ModifyTime d <> 0 -> proto_Marshal d = BlobProto d.
Proof.
  intros H. unfold proto_Marshal, data_is_default. apply Z.eqb_neq in H.
  by rewrite H, andb_false_r.
Qed.

Lemma now_seconds_nonzero now : Second <= now -> now / Second <> 0.
Proof.
  intros H. assert (0 < now / Second); [|lia].
  apply Z.div_str_pos. unfold Second in *. lia.
Qed.

Lemma lru_uncompressed_ext st st' :
  lruData st' = lruData st -> lru_uncompressed st -> lru_uncompressed st'.
Proof. intros E H k it d. rewrite E. apply H. Qed.

Lemma mSetLRUCache_uncompressed opts st now kvs missKeys :
  lru_uncompressed st -> lru_uncompressed (mSetLRUCache opts st now kvs missKeys).
Proof.
  intros H k it d Hk Hv.
  destruct (LRUCacheOptions opts) as [lo|] eqn:HL;
    [|rewrite mSetLRUCache_None in Hk by done; by eapply H].
  rewrite (mSetLRUCache_lookup _ _ _ _ _ lo) in Hk by done.
  destruct (_ && _); [injection Hk as <-; discriminate|].
  destruct (kvs !! k) as [v|]; [|by eapply H].
  injection Hk as <-. simpl in Hv. unfold proto_Marshal in Hv.
  destruct (data_is_default _); [discriminate|]. by injection Hv as <-.
Qed.

Lemma mSetRedisCache_uncompressed opts st now s kvs missKeys :
  lru_uncompressed st -> lru_uncompressed (mSetRedisCache opts st now s kvs missKeys).1.
Proof. apply lru_uncompressed_ext, mSetRedisCache_lruData. Qed.

Lemma mSet_uncompressed opts st now s kvs missKeys :
  lru_uncompressed st -> lru_uncompressed (mSet opts st now s kvs missKeys).1.
Proof.
  intros H. unfold mSet. destruct (_ && _); [done|].
  by apply mSetRedisCache_uncompressed, mSetLRUCache_uncompressed.
Qed.

Lemma warm_uncompressed opts st now vm lruMissKeys redisMissKeys :
  lru_uncompressed st -> lru_uncompressed (warm opts st now vm lruMissKeys redisMissKeys).
Proof.
  intros H. unfold warm. destruct (substract _ _); [done|].
  destruct (split_hits _ _). by apply mSetLRUCache_uncompressed.
Qed.

(** When no key is left after the remote pass, no loader is called and the
    maps are those of the passes. *)
Lemma MGet_no_loader opts st now g s keys m1 vm1 va1 vm2 va2 :
  mGetFromLRUCache opts st now keys ∅ ∅ = (m1, vm1, va1) ->
  mGetFromRedisCache opts st now g m1 vm1 va1 = ([], vm2, va2) ->
  loader_keys (MGet opts st now g s keys).1 = None /\
  valuesMap (MGet opts st now g s keys).1 = vm2 /\
  validsMap (MGet opts st now g s keys).1 = va2.
Proof.
  intros E1 E2. pose proof (MGet_spec opts st now g s keys) as HS.
  rewrite E1, E2 in HS. destruct (MGet opts st now g s keys) as [r st'].
  unfold loader_out in HS. rewrite merge_loaded_empty in HS.
  destruct HS as (HM & _ & HLK & _). injection HM as H1 H2. simpl. by rewrite H1, H2.
Qed.

(** ** C10: the local tier stores payloads uncompressed *)

(** Claim C10: a value written to the local tier is stored as a record of
    the raw bytes with compression tag None, whatever the configured
    compression; a value written to the remote tier (its [SET] accepted and
    applied by redis) is stored compressed with the configured tag; and every write of [MGet] (warm-up and
    write-back) and of [MSet] keeps all local-tier records uncompressed. *)
Theorem local_tier_stores_uncompressed opts :
  (forall st now kvs missKeys lo k v,
     LRUCacheOptions opts = Some lo -> kvs !! k = Some v ->
     (MissTimeout lo = 0 \/ k ∉ missKeys) ->
     lruData (mSetLRUCache opts st now kvs missKeys) !! k =
       Some (mkItem (proto_Marshal (mkData v (now / Second) CompressionType_None))
               (now + Timeout lo))) /\
  (forall st now s kvs missKeys o k v e,
     RedisCacheOptions opts = Some o -> kvs !! k = Some v ->
     (RedisMissTimeout o < Millisecond \/ k ∉ missKeys) ->
     redis_expiry now (HardTimeout o) = Some e -> cmd_applied (s (mkRedisKey opts k)) = true ->
     redisData (mSetRedisCache opts st now s kvs missKeys).1 !! mkRedisKey opts k =
       Some (proto_Marshal (mkData (compress (options_CompressionType opts) v) (now / Second)
                              (options_CompressionType opts)), e)) /\
  (forall st now g s keys,
     lru_uncompressed st -> lru_uncompressed (MGet opts st now g s keys).2) /\
  (forall st now s kvs,
     lru_uncompressed st -> lru_uncompressed (MSet opts st now s kvs).1).
Proof.
  split; [|split; [|split]].
  - intros st now kvs missKeys lo k v HL Hv Hm.
    rewrite (mSetLRUCache_lookup _ _ _ _ _ lo) by done. rewrite Hv.
    destruct Hm as [Hm|Hm].
    + by rewrite (proj2 (Z.eqb_eq _ _) Hm).
    + by rewrite bool_decide_eq_false_2, andb_false_r.
  - intros st now s kvs missKeys o k v e HR Hv Hm He Ha.
    rewrite (mSetRedisCache_lookup _ _ _ _ _ _ o) by done. cbv zeta. rewrite Hv.
    unfold set_result. rewrite He, Ha.
    destruct Hm as [Hm|Hm].
    + rewrite (proj2 (Z.leb_gt _ _) Hm). done.
    + by rewrite bool_decide_eq_false_2, andb_false_r.
  - intros st now g s keys H. pose proof (MGet_spec opts st now g s keys) as HS.
    destruct (mGetFromLRUCache _ _ _ _ _ _) as [[m1 vm1] va1].
    destruct (mGetFromRedisCache _ _ _ _ _ _ _) as [[m2 vm2] va2].
    destruct (MGet opts st now g s keys) as [r st']. destruct HS as (_ & _ & _ & HE).
    pose proof (warm_uncompressed opts st now vm2 m1 m2 H) as HW.
    destruct (loader_out opts m2) as [[values [e|]]|].
    + by injection HE as _ ->.
    + pose proof (mSet_uncompressed opts (warm opts st now vm2 m1 m2) now s values
        (filter (fun key => values !! key = None) m2) HW) as HM.
      destruct (mSet _ _ _ _ _ _) as [st2 e2]. by injection HE as _ ->.
    + by injection HE as _ ->.
  - intros st now s kvs H. by apply mSet_uncompressed.
Qed.

(** ** Round trip of [MSet] and [MGet] *)

Lemma set_ok_result now fate rkey b d old :
  set_failed now fate rkey d = false ->
  set_result now fate rkey b d old =
    Some (b, if 0 <? d then Some (now + d / Millisecond * Millisecond) else None).
Proof.
  unfold set_failed, set_result, redis_expiry.
  destruct (0 <? d); [destruct (d <? Millisecond)|]; try discriminate;
    destruct (fate rkey); simpl; try discriminate; reflexivity.
Qed.

(** Extra X18 ([MSet] then [MGet]): after an [MSet] of [v] under [k] at
    instant [now1] (a real clock reading, at least one second after the
    epoch) that returned no error, an [MGet] of [k] at [now2] returns [v]
    marked valid when either the local tier is configured and [now2] is
    within its fresh timeout, or only the remote tier is configured, its GET
    succeeds, [now2] is before the hard expiry and within the soft timeout
    counted from the whole second the record was stamped with, and the
    configured compression is None or a snappy codec that decodes what it
    encodes. *)
Theorem MSet_then_MGet opts st now1 now2 g s s2 kvs k v :
  kvs !! k = Some v -> Second <= now1 ->
  (MSet opts st now1 s kvs).2 = None ->
  match LRUCacheOptions opts with
  | Some lo => now2 <= now1 + Timeout lo
  | None =>
    exists o, RedisCacheOptions opts = Some o /\ g = true /\
      now2 - now1 / Second * Second <= SoftTimeout o /\
      (0 < HardTimeout o -> now2 < now1 + HardTimeout o / Millisecond * Millisecond) /\
      (options_CompressionType opts = CompressionType_None \/
       (options_CompressionType opts = CompressionType_Snappy /\
        snappy_decode (snappy_encode v) = Some v))
  end ->
  valuesMap (MGet opts (MSet opts st now1 s kvs).1 now2 g s2 [k]).1 !! k = Some v /\
  validsMap (MGet opts (MSet opts st now1 s kvs).1 now2 g s2 [k]).1 !! k = Some true.
Proof.
  intros Hv Hn Herr Hcase.
  assert (kvs <> ∅) as Hne by (intros ->; rewrite lookup_empty in Hv; discriminate).
  unfold MSet in Herr |- *. rewrite (mSet_eq_kvs _ _ _ _ _ _ Hne) in Herr |- *.
  set (st1 := (mSetRedisCache opts (mSetLRUCache opts st now1 kvs []) now1 s kvs []).1).
  pose proof (now_seconds_nonzero now1 Hn) as Hsec.
  destruct (LRUCacheOptions opts) as [lo|] eqn:HL.
  - (* the local tier answers *)
    assert (lru_view st1 now2 k = (false, Some v, true)) as EV.
    { unfold lru_view. subst st1. rewrite mSetRedisCache_lruData.
      rewrite (mSetLRUCache_lookup _ _ _ _ _ lo k HL), Hv.
      rewrite bool_decide_eq_false_2 by apply not_elem_of_nil. rewrite andb_false_r.
      unfold lru_record. rewrite proto_Marshal_time by done. simpl.
      unfold item_Expired. simpl. by rewrite (proj2 (Z.ltb_ge _ _) Hcase). }
    pose proof (mGetFromLRUCache_Some opts st1 now2 [k] ∅ ∅ lo HL) as HS1.
    destruct (mGetFromLRUCache opts st1 now2 [k] ∅ ∅) as [[m1 vm1] va1] eqn:E1.
    destruct HS1 as (Hm1 & Hv1 & Ha1).
    rewrite filter_cons, filter_nil, EV, decide_False in Hm1 by done. subst m1.
    destruct (MGet_no_loader opts st1 now2 g s2 [k] [] vm1 va1 vm1 va1 E1
                (mGetFromRedisCache_nil _ _ _ _ _ _)) as (_ & -> & ->).
    rewrite Hv1, Ha1, EV. simpl. repeat case_decide; first [set_solver | split; reflexivity].
  - (* only the remote tier *)
    destruct Hcase as (o & HR & -> & Hsoft & Hhard & Hct).
    assert (set_failed now1 s (mkRedisKey opts k) (HardTimeout o) = false) as Hok.
    { destruct (mSetRedisCache_err opts (mSetLRUCache opts st now1 kvs []) now1 s kvs [] o HR)
        as [(_ & Hall & _)|(He & _)]; [exact (Hall k v Hv)|congruence]. }
    set (d := redis_record opts now1 v).
    assert (redis_cmd opts st1 now2 true k = Some (BlobProto d)) as EC.
    { unfold redis_cmd, redis_get. subst st1.
      rewrite (mSetRedisCache_lookup _ _ _ _ _ _ o k HR). cbv zeta. rewrite Hv.
      rewrite bool_decide_eq_false_2 by apply not_elem_of_nil. rewrite andb_false_r.
      rewrite (set_ok_result _ _ _ _ _ _ Hok).
      rewrite proto_Marshal_time by done.
      destruct (0 <? HardTimeout o) eqn:Eh; [|done].
      apply Z.ltb_lt in Eh. by rewrite (proj2 (Z.ltb_lt _ _) (Hhard Eh)). }
    assert (remote_raw d = v) as Eraw.
    { unfold remote_raw, d, redis_record, compress, decompress. simpl.
      destruct Hct as [-> | [-> Hsn]]; [done|]. simpl. by rewrite Hsn. }
    assert (redis_view o now2 (redis_cmd opts st1 now2 true k) =
            (false, fun _ => Some v, true)) as EV.
    { rewrite EC. unfold redis_view. simpl.
      rewrite (proj2 (Z.leb_le _ _) Hsoft). by rewrite Eraw. }
    pose proof (mGetFromRedisCache_Some opts st1 now2 true [k] ∅ ∅ o HR) as HS2.
    destruct (mGetFromRedisCache opts st1 now2 true [k] ∅ ∅) as [[m2 vm2] va2] eqn:E2.
    destruct HS2 as (Hm2 & Hv2 & Ha2).
    rewrite filter_cons, filter_nil, EV, decide_False in Hm2 by done. subst m2.
    destruct (MGet_no_loader opts st1 now2 true s2 [k] [k] ∅ ∅ vm2 va2
                (mGetFromLRUCache_None _ _ _ _ _ _ HL) E2) as (_ & -> & ->).
    rewrite Hv2, Ha2, EV. simpl. repeat case_decide; first [set_solver | split; reflexivity].
Qed.

(** ** C4: negative caching *)

(** The state a call leaves behind at a key the loader was asked for and
    found nothing for, when the call returned no error. *)
Lemma MGet_loader_miss_state opts st now g s keys k ks ld :
  Loader opts = Some ld ->
  loader_keys (MGet opts st now g s keys).1 = Some ks -> k ∈ ks -> (ld ks).1 !! k = None ->
  err (MGet opts st now g s keys).1 = None ->
  (forall lo, LRUCacheOptions opts = Some lo ->
     lruData (MGet opts st now g s keys).2 !! k =
       (if MissTimeout lo =? 0 then lruData st !! k
        else Some (mkItem missBytes (now + MissTimeout lo))) /\
     (lru_view st now k).1.1 = true) /\
  (forall o, RedisCacheOptions opts = Some o -> Millisecond <= RedisMissTimeout o ->
     redisData (MGet opts st now g s keys).2 !! mkRedisKey opts k =
       Some (missBytes, Some (now + RedisMissTimeout o / Millisecond * Millisecond))).
Proof.
  intros Hld HK Hk Hnone Herr. pose proof (MGet_spec opts st now g s keys) as HS.
  destruct (mGetFromLRUCache opts st now keys ∅ ∅) as [[m1 vm1] va1] eqn:E1.
  destruct (mGetFromRedisCache opts st now g m1 vm1 va1) as [[m2 vm2] va2] eqn:E2.
  destruct (MGet opts st now g s keys) as [r st']. simpl in HK, Herr |- *.
  destruct HS as (_ & _ & HLK & HE).
  assert (ks = m2 /\ loader_out opts m2 = Some (ld m2)) as [-> Hlo].
  { unfold loader_out in HLK |- *. rewrite Hld in HLK |- *.
    destruct m2; [congruence|]. split; [congruence|done]. }
  assert (k ∈ m1) as Hk1 by (by apply (mGetFromRedisCache_facts _ _ _ _ _ _ _ _ _ _ E2)).
  rewrite Hlo in HE. destruct (ld m2) as [values [e|]] eqn:Eld; simpl in Hnone.
  { injection HE as He _. congruence. }
  set (lmk := filter (fun key => values !! key = None) m2) in HE.
  assert (k ∈ lmk) as Hkl by (subst lmk; by apply list_elem_of_filter).
  rewrite mSet_eq in HE by (intros Hn; rewrite Hn in Hkl; set_solver).
  pose proof (mSetRedisCache_lruData opts (mSetLRUCache opts (warm opts st now vm2 m1 m2) now values lmk)
    now s values lmk) as HLD.
  destruct (RedisCacheOptions opts) as [o|] eqn:HR.
  - pose proof (mSetRedisCache_err opts (mSetLRUCache opts (warm opts st now vm2 m1 m2) now values lmk)
      now s values lmk o HR) as HER.
    pose proof (mSetRedisCache_lookup opts (mSetLRUCache opts (warm opts st now vm2 m1 m2) now values lmk)
      now s values lmk o k HR) as HRL.
    destruct (mSetRedisCache _ _ _ _ _ _) as [st2 e2] eqn:Em. cbn [fst snd] in HLD, HER, HRL.
    simpl in HE. injection HE as He Hs. rewrite He in Herr. subst st' e2.
    destruct HER as [(_ & _ & Hmiss)|(? & _)]; [|discriminate]. split.
    + intros lo HL. split.
      * rewrite HLD, (mSetLRUCache_lookup _ _ _ _ _ lo k HL), Hnone.
        rewrite warm_lookup_other by done. rewrite (bool_decide_eq_true_2 (k ∈ lmk)) by done.
        by destruct (MissTimeout lo =? 0).
      * pose proof (mGetFromLRUCache_Some opts st now keys ∅ ∅ lo HL) as HS1.
        rewrite E1 in HS1. destruct HS1 as (Hm1 & _ & _).
        rewrite Hm1 in Hk1. by apply list_elem_of_filter in Hk1 as [? _].
    + intros o' Ho' Hms. injection Ho' as <-. rewrite HRL. cbv zeta.
      rewrite (proj2 (Z.leb_le _ _) Hms), bool_decide_eq_true_2 by done. simpl.
      rewrite (set_ok_result _ _ _ _ _ _ (Hmiss Hms k Hkl)).
      rewrite (proj2 (Z.ltb_lt 0 _)) by (unfold Millisecond in Hms; lia). done.
  - unfold mSetRedisCache in HE. rewrite HR in HE. simpl in HE.
    injection HE as _ Hs. subst st'. split; [|discriminate].
    intros lo HL. split.
    + rewrite (mSetLRUCache_lookup _ _ _ _ _ lo k HL), Hnone.
      rewrite warm_lookup_other by done. rewrite (bool_decide_eq_true_2 (k ∈ lmk)) by done.
      by destruct (MissTimeout lo =? 0).
    + pose proof (mGetFromLRUCache_Some opts st now keys ∅ ∅ lo HL) as HS1.
      rewrite E1 in HS1. destruct HS1 as (Hm1 & _ & _).
      rewrite Hm1 in Hk1. by apply list_elem_of_filter in Hk1 as [? _].
Qed.

(** Claim C4 (as amended): after a call in which the loader was asked for
    [k], found nothing and the call returned no error, a later call whose
    keys include [k], within a negative-cache window (the local negative
    timeout when it is nonzero, or the remote miss timeout of at least 1ms
    with a successful GET), does not ask the loader for [k]; unless the
    loader, called in that later call for other keys, returns an entry for
    [k], the call does not mark [k] valid and returns no value for [k],
    except that with a local tier configured with a zero negative timeout an
    expired local record may still be returned. *)
Theorem MGet_negative_cache opts st now1 now2 g1 s1 g2 s2 keys keys2 k ks ld :
  Loader opts = Some ld ->
  loader_keys (MGet opts st now1 g1 s1 keys).1 = Some ks -> k ∈ ks ->
  (ld ks).1 !! k = None ->
  err (MGet opts st now1 g1 s1 keys).1 = None ->
  now1 <= now2 -> k ∈ keys2 ->
  ((exists lo, LRUCacheOptions opts = Some lo /\ MissTimeout lo <> 0 /\
               now2 <= now1 + MissTimeout lo) \/
   (exists o, RedisCacheOptions opts = Some o /\ Millisecond <= RedisMissTimeout o /\
              now2 < now1 + RedisMissTimeout o / Millisecond * Millisecond /\ g2 = true)) ->
  (forall ks2, loader_keys (MGet opts (MGet opts st now1 g1 s1 keys).2 now2 g2 s2 keys2).1
                 = Some ks2 -> k ∉ ks2) /\
  (loaded_entry opts (MGet opts (MGet opts st now1 g1 s1 keys).2 now2 g2 s2 keys2).1 k = None ->
   validsMap (MGet opts (MGet opts st now1 g1 s1 keys).2 now2 g2 s2 keys2).1 !! k <> Some true /\
   (valuesMap (MGet opts (MGet opts st now1 g1 s1 keys).2 now2 g2 s2 keys2).1 !! k = None \/
    exists lo, LRUCacheOptions opts = Some lo /\ MissTimeout lo = 0)).
Proof.
  intros Hld HK Hk Hnone Herr Hle Hk2 Hwin.
  destruct (MGet_loader_miss_state opts st now1 g1 s1 keys k ks ld Hld HK Hk Hnone Herr)
    as [HLs HRs].
  set (st2 := (MGet opts st now1 g1 s1 keys).2) in *.
  (* the local pass of the later call, at [k] *)
  destruct (mGetFromLRUCache opts st2 now2 keys2 ∅ ∅) as [[m1 vm1] va1] eqn:E1.
  assert (va1 !! k = None /\
          (vm1 !! k = None \/ exists lo, LRUCacheOptions opts = Some lo /\ MissTimeout lo = 0) /\
          (forall lo, LRUCacheOptions opts = Some lo -> MissTimeout lo <> 0 ->
                      now2 <= now1 + MissTimeout lo -> k ∉ m1))
    as (Ha1 & Hv1 & Hloc).
  { destruct (LRUCacheOptions opts) as [lo|] eqn:HL.
    - pose proof (mGetFromLRUCache_Some opts st2 now2 keys2 ∅ ∅ lo HL) as HS1.
      rewrite E1 in HS1. destruct HS1 as (Hm & Hv & Ha).
      destruct (HLs lo eq_refl) as [Hst Hc].
      destruct (MissTimeout lo =? 0) eqn:Emt.
      + apply Z.eqb_eq in Emt.
        assert (lru_view st2 now2 k = lru_view st now2 k) as EV by (apply lru_view_ext; exact Hst).
        pose proof (lru_view_miss_invalid _ _ _ (lru_view_mono st now1 now2 k Hc Hle)) as Hinv.
        rewrite Ha, decide_True, EV, Hinv, lookup_empty by done.
        split; [done|]. split; [right; by exists lo|]. intros lo' Hlo'. congruence.
      + assert (lru_view st2 now2 k =
                (item_Expired now2 (mkItem missBytes (now1 + MissTimeout lo)), None, false)) as EV.
        { unfold lru_view. by rewrite Hst. }
        rewrite Ha, Hv, !decide_True, EV by done. simpl. rewrite !lookup_empty.
        split; [done|]. split; [by left|].
        intros lo' Hlo' _ Hw. injection Hlo' as <-.
        rewrite Hm, list_elem_of_filter, EV. unfold item_Expired. simpl.
        rewrite (proj2 (Z.ltb_ge _ _) Hw). intros [? _]. discriminate.
    - rewrite mGetFromLRUCache_None in E1 by done. injection E1 as <- <- <-.
      rewrite !lookup_empty. split; [done|]. split; [by left|]. discriminate. }
  (* the remote pass of the later call, at [k] *)
  destruct (mGetFromRedisCache opts st2 now2 g2 m1 vm1 va1) as [[m2 vm2] va2] eqn:E2.
  assert ((k ∉ m2) /\ vm2 !! k = vm1 !! k /\ va2 !! k = va1 !! k) as (Hkm2 & Hv2 & Ha2).
  { pose proof (mGetFromRedisCache_facts _ _ _ _ _ _ _ _ _ _ E2) as [Hsub Hkeep].
    destruct (decide (k ∈ m1)) as [Hin|Hnin].
    2:{ split; [intros ?%Hsub; done|exact (Hkeep k Hnin)]. }
    destruct Hwin as [(lo & HL & Hmt & Hw)|(o & HR & Hms & Hw & ->)].
    { exfalso. exact (Hloc lo HL Hmt Hw Hin). }
    assert (redis_view o now2 (redis_cmd opts st2 now2 true k) = (false, fun x => x, false)) as EVr.
    { unfold redis_cmd, redis_get. rewrite (HRs o HR Hms).
      by rewrite (proj2 (Z.ltb_lt _ _) Hw). }
    pose proof (mGetFromRedisCache_Some opts st2 now2 true m1 vm1 va1 o HR) as HS2.
    rewrite E2 in HS2. destruct HS2 as (Hm & Hv & Ha). split; [|split].
    - rewrite Hm, list_elem_of_filter, EVr. intros [? _]. discriminate.
    - rewrite Hv, EVr. by case_decide.
    - rewrite Ha, EVr. by case_decide. }
  destruct (MGet_parts opts st2 now2 g2 s2 keys2 _ _ _ _ _ _ E1 E2) as (_ & _ & HLK & _).
  destruct (MGet_maps_loaded opts st2 now2 g2 s2 keys2 k _ _ _ _ _ _ E1 E2) as [HV HA].
  split.
  - intros ks2. rewrite HLK. destruct (loader_out opts m2); [|discriminate].
    intros [= <-]. exact Hkm2.
  - intros Hno. rewrite HV, HA, Hno, Hv2, Ha2, Ha1. split; [discriminate|exact Hv1].
Qed.

(** ** C8: construction-time validation *)

Lemma lru_isValid_spec lo :
  is_Some (lru_isValid (Some lo)) <->
  (Size lo <= 0 \/ Timeout lo <= 0 \/
   (MissTimeout lo <> 0 /\ (MissTimeout lo < Millisecond \/ Timeout lo <= MissTimeout lo))).
Proof.
  unfold lru_isValid.
  destruct (Z.leb_spec (Size lo) 0), (Z.eqb_spec (MissTimeout lo) 0),
    (Z.ltb_spec (MissTimeout lo) Millisecond), (Z.leb_spec (Timeout lo) 0),
    (Z.leb_spec (Timeout lo) (MissTimeout lo)); simpl;
    (split; [intros Hs | intros Hp]);
    first [lia | by eexists | (destruct Hs as [? Hs]; discriminate) | exfalso; lia].
Qed.

Lemma redis_isValid_spec ro :
  is_Some (redis_isValid (Some ro)) <->
  (Client ro = None \/ Prefix ro = "" \/
   (RedisMissTimeout ro <> 0 /\ RedisMissTimeout ro < Millisecond)).
Proof.
  unfold redis_isValid. destruct (Client ro) as [c|].
  2:{ split; [by left|intros _; by eexists]. }
  destruct (String.eqb_spec (Prefix ro) "").
  { split; [by right; left|intros _; by eexists]. }
  destruct (Z.eqb_spec (RedisMissTimeout ro) 0), (Z.ltb_spec (RedisMissTimeout ro) Millisecond);
    simpl; (split; [intros Hs | intros Hp]);
    first [by eexists | (destruct Hs as [? Hs]; discriminate)
          | (right; right; lia) | (exfalso; destruct Hp as [Hp|[Hp|Hp]]; [discriminate|done|lia])].
Qed.

(** Claim C8: [NewCache] panics exactly on the configurations the
    specification lists as invalid, and on every other configuration it
    returns a cache built from the given name and options. *)
Theorem NewCache_validation name options :
  ((exists e, NewCache name options = Panic e) <-> spec_config_invalid name options) /\
  (~ spec_config_invalid name options ->
   exists o, options = Some o /\ NewCache name options = Created (newCacheImpl name o)).
Proof.
  assert (NewCache name options =
          if String.eqb name "" then Panic (ErrOptions "name empty")
          else match options_isValid options with
               | Some e => Panic e
               | None => match options with
                         | Some o => Created (newCacheImpl name o)
                         | None => Panic (ErrOptions "options nil")
                         end
               end) as EN by reflexivity.
  assert ((exists e, NewCache name options = Panic e) <-> spec_config_invalid name options) as HI.
  { rewrite EN. unfold spec_config_invalid.
    destruct (String.eqb_spec name ""); [split; [by left|by eexists]|].
    destruct options as [o|]; simpl; [|split; [by right|by eexists]].
    pose proof (lru_isValid_spec) as HLs. pose proof (redis_isValid_spec) as HRs.
    destruct (LRUCacheOptions o) as [lo|], (RedisCacheOptions o) as [ro|].
    all: try (specialize (HLs lo)); try (specialize (HRs ro)).
    all: try (destruct (lru_isValid (Some lo)) as [e1|]);
         try (destruct (redis_isValid (Some ro)) as [e2|]); simpl.
    all: split; [intros [e He]|intros Hs].
    all: repeat match goal with
           | H : Created _ = Panic _ |- _ => discriminate H
           | H : Panic _ = Panic _ |- _ => clear H
           | H : is_Some None <-> _ |- _ => destruct H as [_ H]
           | H : is_Some (Some _) <-> _ |- _ => destruct H as [H _]; specialize (H ltac:(by eexists))
           end.
    all: try (by eexists).
    all: try naive_solver.
    all: exfalso; destruct Hs as [Hs|[Hs|[? [Hs ?]]|[? [Hs ?]]]]; naive_solver. }
  split; [exact HI|]. intros Hn.
  destruct (String.eqb name "") eqn:Ename.
  { exfalso. apply Hn, HI. rewrite EN. by eexists. }
  destruct (options_isValid options) as [e|] eqn:Ev.
  { exfalso. apply Hn, HI. rewrite EN. by eexists. }
  rewrite EN. destruct options as [o|]; [by exists o|discriminate].
Qed.

End Proofs.

(** ** Concrete runs *)

(** C6: a remote record whose compression tag is unknown ([decompress]
    fails) is returned as a valid hit with a nil value, and the loader is
    not consulted. *)
Lemma MGet_decompress_error_is_valid_hit :
  decompress 2 val_a = None /\
  valuesMap (MGet opts_redis st_bad_tag (10 * Second) true all_ok ["a"]).1 !! "a" = Some [] /\
  validsMap (MGet opts_redis st_bad_tag (10 * Second) true all_ok ["a"]).1 !! "a" = Some true /\
  loader_keys (MGet opts_redis st_bad_tag (10 * Second) true all_ok ["a"]).1 = None /\
  err (MGet opts_redis st_bad_tag (10 * Second) true all_ok ["a"]).1 = None.
Proof. vm_compute. repeat split. Qed.

(** C1: a stale local value is replaced by a fresh remote record. *)
Lemma MGet_remote_fresh_overrides_local_stale :
  lru_view st_stale_a_remote_b (10 * Second) "a" = (true, Some val_a, false) /\
  valuesMap (MGet opts_both st_stale_a_remote_b (10 * Second) true all_ok ["a"]).1 !! "a"
    = Some val_b /\
  val_a <> val_b.
Proof. split; [vm_compute; reflexivity|]. split; [vm_compute; reflexivity|discriminate]. Qed.

(** C2: after a loader miss the stale local value is still returned. *)
Lemma MGet_loader_miss_returns_stale :
  loader_keys (MGet opts_lru st_stale_a (10 * Second) true all_ok ["a"]).1 = Some ["a"] /\
  (miss_loader ["a"]).1 !! "a" = None /\
  err (MGet opts_lru st_stale_a (10 * Second) true all_ok ["a"]).1 = None /\
  valuesMap (MGet opts_lru st_stale_a (10 * Second) true all_ok ["a"]).1 !! "a" = Some val_a.
Proof. vm_compute. repeat split. Qed.

(** C3: a loader answering with a key it was not asked for overwrites a
    fresh local value. *)
Lemma MGet_stray_loader_overrides_fresh :
  lruData st_fresh_a !! "a" = Some item_fresh_a /\
  item_Expired Second item_fresh_a = false /\
  valuesMap (MGet opts_stray st_fresh_a Second true all_ok ["a"; "b"]).1 !! "a" = Some val_b.
Proof. vm_compute. repeat split. Qed.

(** C4: with no local negative caching, the remote miss marker stops the
    loader but the expired local value is still returned. *)
Lemma MGet_negative_cache_returns_stale :
  loader_keys (MGet opts_no_neg st_stale_a (10 * Second) true all_ok ["a"]).1 = Some ["a"] /\
  err (MGet opts_no_neg st_stale_a (10 * Second) true all_ok ["a"]).1 = None /\
  loader_keys (MGet opts_no_neg (MGet opts_no_neg st_stale_a (10 * Second) true all_ok ["a"]).2
                 (10 * Second) true all_ok ["a"]).1 = None /\
  valuesMap (MGet opts_no_neg (MGet opts_no_neg st_stale_a (10 * Second) true all_ok ["a"]).2
               (10 * Second) true all_ok ["a"]).1 !! "a" = Some val_a.
Proof. vm_compute. repeat split. Qed.

(** Claim C7 (code bug): a key-value pair written by [MSet] and read back
    at once by [MGet] is not always returned valid. With only the remote
    tier, configured with a soft timeout of 500ms (options.go documents the
    timeouts as having at least millisecond precision), the record is
    stamped with the whole second of the write ([time.Now().Unix()]): written
    and read at 1.9s, it is 0.9s old when read, soft-expired, and its bytes
    come back without valid=true. *)
Theorem MSet_MGet_soft_second_granularity :
  SoftTimeout redis_soft = 500 * Millisecond /\
  (MSet opts_soft st_empty (1900 * Millisecond) all_ok {["a" := val_a]}).2 = None /\
  valuesMap (MGet opts_soft (MSet opts_soft st_empty (1900 * Millisecond) all_ok {["a" := val_a]}).1
               (1900 * Millisecond) true all_ok ["a"]).1 !! "a" = Some val_a /\
  validsMap (MGet opts_soft (MSet opts_soft st_empty (1900 * Millisecond) all_ok {["a" := val_a]}).1
               (1900 * Millisecond) true all_ok ["a"]).1 !! "a" = None.
Proof. vm_compute. repeat split. Qed.

(** ** Witnesses: each theorem at a concrete input *)

Lemma MGet_valid_implies_value_witness :
  validsMap (MGet opts_lru st_fresh_a Second true all_ok ["a"]).1 !! "a" = Some true /\
  is_Some (valuesMap (MGet opts_lru st_fresh_a Second true all_ok ["a"]).1 !! "a").
Proof.
  split; [vm_compute; reflexivity|].
  apply MGet_valid_implies_value. vm_compute. reflexivity.
Defined.

Lemma MGet_local_fresh_short_circuits_witness :
  ("a" ∉ redis_keys (MGet opts_lru st_fresh_a Second true all_ok ["a"]).1) /\
  (forall ks, loader_keys (MGet opts_lru st_fresh_a Second true all_ok ["a"]).1 = Some ks ->
              "a" ∉ ks) /\
  valuesMap (MGet opts_lru st_fresh_a Second true all_ok ["a"]).1 !! "a" =
    Some (match loaded_entry opts_lru (MGet opts_lru st_fresh_a Second true all_ok ["a"]).1 "a" with
          | Some v => v | None => Raw rec_a end) /\
  validsMap (MGet opts_lru st_fresh_a Second true all_ok ["a"]).1 !! "a" = Some true.
Proof.
  apply (MGet_local_fresh_short_circuits opts_lru st_fresh_a Second true all_ok ["a"] "a"
           test_lru item_fresh_a rec_a).
  - reflexivity.
  - constructor.
  - vm_compute. reflexivity.
  - reflexivity.
  - vm_compute. reflexivity.
Defined.

Lemma MGet_local_stale_vs_remote_witness :
  match loaded_entry opts_both (MGet opts_both st_stale_a_remote_b (10 * Second) true all_ok ["a"]).1 "a" with
  | Some v =>
    valuesMap (MGet opts_both st_stale_a_remote_b (10 * Second) true all_ok ["a"]).1 !! "a" = Some v /\
    validsMap (MGet opts_both st_stale_a_remote_b (10 * Second) true all_ok ["a"]).1 !! "a" = Some true
  | None =>
    if 10 * Second - ModifyTime rec_b * Second <=? SoftTimeout test_redis
    then valuesMap (MGet opts_both st_stale_a_remote_b (10 * Second) true all_ok ["a"]).1 !! "a"
           = Some (remote_raw rec_b) /\
         validsMap (MGet opts_both st_stale_a_remote_b (10 * Second) true all_ok ["a"]).1 !! "a"
           = Some true
    else valuesMap (MGet opts_both st_stale_a_remote_b (10 * Second) true all_ok ["a"]).1 !! "a"
           = Some (Raw rec_a) /\
         validsMap (MGet opts_both st_stale_a_remote_b (10 * Second) true all_ok ["a"]).1 !! "a"
           = None
  end.
Proof.
  apply (MGet_local_stale_vs_remote opts_both st_stale_a_remote_b (10 * Second) true all_ok
           ["a"] "a" test_lru test_redis item_stale_a rec_a rec_b).
  - reflexivity.
  - reflexivity.
  - constructor.
  - vm_compute. reflexivity.
  - reflexivity.
  - vm_compute. reflexivity.
  - vm_compute. reflexivity.
Defined.

Lemma MGet_error_keeps_maps_witness :
  valuesMap (MGet opts_failing st_stale_a (10 * Second) true all_ok ["a"]).1 !! "a" = Some val_a /\
  validsMap (MGet opts_failing st_stale_a (10 * Second) true all_ok ["a"]).1 !! "a" = None /\
  err (MGet opts_failing st_stale_a (10 * Second) true all_ok ["a"]).1 =
    Some (ErrLoader "loader error").
Proof.
  apply (proj2 (MGet_error_keeps_maps opts_failing st_stale_a (10 * Second) true all_ok ["a"])
           "a" test_lru item_stale_a rec_a failing_loader "loader error").
  - reflexivity.
  - constructor.
  - vm_compute. reflexivity.
  - reflexivity.
  - vm_compute. reflexivity.
  - left. reflexivity.
  - reflexivity.
  - intros ks. split; [apply lookup_empty|reflexivity].
Defined.

Lemma MGet_loader_miss_keeps_candidate_witness :
  loader_keys (MGet opts_lru st_stale_a (10 * Second) true all_ok ["a"]).1 = Some ["a"] /\
  valuesMap (MGet opts_lru st_stale_a (10 * Second) true all_ok ["a"]).1 !! "a" =
    ({["a" := val_a]} : gmap string bytes) !! "a" /\
  validsMap (MGet opts_lru st_stale_a (10 * Second) true all_ok ["a"]).1 !! "a" = None.
Proof.
  apply (MGet_loader_miss_keeps_candidate opts_lru st_stale_a (10 * Second) true all_ok ["a"] "a"
           ["a"] {["a" := val_a]} ∅ ["a"] {["a" := val_a]} ∅ ∅).
  - vm_compute. reflexivity.
  - vm_compute. reflexivity.
  - reflexivity.
  - constructor.
  - apply lookup_empty.
Defined.

Lemma local_tier_stores_uncompressed_witness :
  lruData (mSetLRUCache opts_lru st_empty Second {["a" := val_a]} []) !! "a" =
    Some (mkItem (proto_Marshal (mkData val_a (Second / Second) CompressionType_None))
            (Second + Timeout test_lru)).
Proof.
  apply (proj1 (local_tier_stores_uncompressed opts_lru) st_empty Second {["a" := val_a]} []
           test_lru "a" val_a).
  - reflexivity.
  - apply lookup_insert_eq.
  - right. apply not_elem_of_nil.
Defined.

Lemma MSet_then_MGet_witness :
  (MSet opts_lru st_empty (10 * Second) all_ok {["a" := val_a]}).2 = None /\
  valuesMap (MGet opts_lru (MSet opts_lru st_empty (10 * Second) all_ok {["a" := val_a]}).1
               (10 * Second) true all_ok ["a"]).1 !! "a" = Some val_a /\
  validsMap (MGet opts_lru (MSet opts_lru st_empty (10 * Second) all_ok {["a" := val_a]}).1
               (10 * Second) true all_ok ["a"]).1 !! "a" = Some true.
Proof.
  split; [vm_compute; reflexivity|].
  apply (MSet_then_MGet opts_lru st_empty (10 * Second) (10 * Second) true all_ok all_ok
           {["a" := val_a]} "a" val_a).
  - apply lookup_insert_eq.
  - unfold Second. lia.
  - vm_compute. reflexivity.
  - simpl. unfold Millisecond. lia.
Defined.

Lemma MGet_negative_cache_witness :
  (forall ks2, loader_keys (MGet opts_both (MGet opts_both st_empty (10 * Second) true all_ok ["a"]).2
                              (10 * Second) true all_ok ["a"]).1 = Some ks2 -> "a" ∉ ks2) /\
  (loaded_entry opts_both (MGet opts_both (MGet opts_both st_empty (10 * Second) true all_ok ["a"]).2
                             (10 * Second) true all_ok ["a"]).1 "a" = None ->
   validsMap (MGet opts_both (MGet opts_both st_empty (10 * Second) true all_ok ["a"]).2
                (10 * Second) true all_ok ["a"]).1 !! "a" <> Some true /\
   (valuesMap (MGet opts_both (MGet opts_both st_empty (10 * Second) true all_ok ["a"]).2
                 (10 * Second) true all_ok ["a"]).1 !! "a" = None \/
    exists lo, LRUCacheOptions opts_both = Some lo /\ MissTimeout lo = 0)).
Proof.
  apply (MGet_negative_cache opts_both st_empty (10 * Second) (10 * Second) true all_ok true all_ok
           ["a"] ["a"] "a" ["a"] miss_loader).
  - reflexivity.
  - vm_compute. reflexivity.
  - constructor.
  - apply lookup_empty.
  - vm_compute. reflexivity.
  - lia.
  - constructor.
  - left. exists test_lru. split; [reflexivity|]. simpl. unfold Millisecond. lia.
Defined.

Lemma NewCache_validation_witness :
  exists o, Some opts_both = Some o /\
            NewCache "c" (Some opts_both) = Created (newCacheImpl "c" o).
Proof.
  apply (proj2 (NewCache_validation "c" (Some opts_both))).
  unfold spec_config_invalid. simpl.
  intros [H|[[H _]|[(lo & Hlo & H)|(ro & Hro & H)]]].
  - discriminate.
  - discriminate.
  - injection Hlo as <-. simpl in H. unfold Millisecond in H. lia.
  - injection Hro as <-. simpl in H. unfold Millisecond in H.
    destruct H as [H|[H|H]]; [discriminate|discriminate|lia].
Defined.

(** ** Further properties of the engine *)

Section Extras.
Context {SN : Snappy}.

(** *** Deletion *)

Lemma fold_left_delete_lookup {B} (g : string -> string) keys (m0 : gmap string B) k :
  (forall k1 k2, g k1 = g k2 -> k1 = k2) ->
  fold_left (fun m rkey => delete rkey m) (map g keys) m0 !! g k =
    if decide (k ∈ keys) then None else m0 !! g k.
Proof.
  intros Hg. revert m0. induction keys as [|x xs IH]; intros m0; cbn [map fold_left].
  - rewrite decide_False; [done|apply not_elem_of_nil].
  - rewrite IH, lookup_delete.
    destruct (decide (x = k)) as [->|Hne].
    + rewrite (decide_True (P:=g k = g k)) by done.
      rewrite (decide_True (P:=k ∈ k :: xs)) by set_solver. by case_decide.
    + rewrite (decide_False (P:=g x = g k)) by (intros ?%Hg; done).
      destruct (decide (k ∈ xs)).
      * by rewrite (decide_True (P:=k ∈ x :: xs)) by set_solver.
      * by rewrite (decide_False (P:=k ∈ x :: xs)) by set_solver.
Qed.

Lemma MDel_lru_lookup opts st d keys k :
  lruData (MDel opts st d keys).1 !! k =
    match LRUCacheOptions opts with
    | Some _ => if decide (k ∈ keys) then None else lruData st !! k
    | None => lruData st !! k
    end.
Proof.
  assert (forall m : gmap string lru_item,
            fold_left (fun m key => delete key m) keys m !! k =
            if decide (k ∈ keys) then None else m !! k) as HF.
  { intros m. pose proof (fold_left_delete_lookup (fun x => x) keys m k (fun _ _ e => e)) as H.
    rewrite map_id in H. exact H. }
  destruct keys as [|x xs].
  - cbn [MDel fst]. destruct (LRUCacheOptions opts); [|done].
    by rewrite decide_False by apply not_elem_of_nil.
  - unfold MDel. destruct (LRUCacheOptions opts) as [lo|];
      destruct (RedisCacheOptions opts) as [o|]; [destruct d| | destruct d|];
      cbn [fst lruData]; rewrite ?HF; done.
Qed.

Lemma MDel_redis_lookup opts st d keys k :
  redisData (MDel opts st d keys).1 !! mkRedisKey opts k =
    match RedisCacheOptions opts with
    | Some _ => if cmd_applied d && bool_decide (k ∈ keys) then None
                else redisData st !! mkRedisKey opts k
    | None => redisData st !! mkRedisKey opts k
    end.
Proof.
  destruct keys as [|x xs].
  - cbn [MDel fst]. destruct (RedisCacheOptions opts); [|done].
    by rewrite bool_decide_eq_false_2, andb_false_r by apply not_elem_of_nil.
  - unfold MDel. destruct (RedisCacheOptions opts) as [o|]; [|done].
    destruct (cmd_applied d); cbn [fst redisData andb]; [|done].
    rewrite (fold_left_delete_lookup (mkRedisKey opts)) by apply mkRedisKey_inj.
    by case_decide; case_bool_decide.
Qed.

Lemma MDel_err opts st d keys :
  (MDel opts st d keys).2 =
    match keys, RedisCacheOptions opts with
    | _ :: _, Some _ => if cmd_failed d then Some ErrRedisWrite else None
    | _, _ => None
    end.
Proof.
  unfold MDel. destruct keys; [done|].
  destruct (RedisCacheOptions opts); [by destruct d|done].
Qed.

(** Extra X1 ([MDel]): a delete whose redis DEL is applied and acknowledged
    (or that has no remote tier) returns no error, removes every given key
    from each configured tier, and leaves every other key of both tiers as it
    was. *)
Theorem MDel_removes_keys opts st f keys k :
  (RedisCacheOptions opts = None \/ f = CmdOk) ->
  (MDel opts st f keys).2 = None /\
  (LRUCacheOptions opts <> None -> k ∈ keys -> lruData (MDel opts st f keys).1 !! k = None) /\
  (RedisCacheOptions opts <> None -> k ∈ keys ->
     redisData (MDel opts st f keys).1 !! mkRedisKey opts k = None) /\
  (k ∉ keys ->
     lruData (MDel opts st f keys).1 !! k = lruData st !! k /\
     redisData (MDel opts st f keys).1 !! mkRedisKey opts k =
       redisData st !! mkRedisKey opts k).
Proof.
  intros Hd. rewrite MDel_err, MDel_lru_lookup, MDel_redis_lookup.
  split; [|split; [|split]].
  - destruct keys; [done|]. destruct Hd as [-> | ->]; [done|].
    by destruct (RedisCacheOptions opts).
  - intros HL Hk. destruct (LRUCacheOptions opts); [|done]. by rewrite decide_True.
  - intros HR Hk. destruct (RedisCacheOptions opts); [|done].
    destruct Hd as [? | ->]; [done|]. by rewrite bool_decide_eq_true_2.
  - intros Hk. split.
    + destruct (LRUCacheOptions opts); [|done]. by rewrite decide_False.
    + destruct (RedisCacheOptions opts); [|done].
      by rewrite bool_decide_eq_false_2, andb_false_r.
Qed.

(** Extra X2 ([MDel]): when the redis DEL fails (redis does not apply it, or
    applies it but its reply is lost), the error is returned; the remote tier
    is then left untouched if the DEL was not applied, or has the keys
    deleted as by a successful DEL if it was; the given keys have been
    removed from the local tier either way. *)
Theorem MDel_failed_delete opts st f keys k o lo :
  RedisCacheOptions opts = Some o -> LRUCacheOptions opts = Some lo -> k ∈ keys ->
  f <> CmdOk ->
  (MDel opts st f keys).2 = Some ErrRedisWrite /\
  redisData (MDel opts st f keys).1 =
    (if cmd_applied f then redisData (MDel opts st CmdOk keys).1 else redisData st) /\
  lruData (MDel opts st f keys).1 !! k = None.
Proof.
  intros HR HL Hk Hf. destruct keys as [|x xs]; [set_solver|].
  rewrite MDel_err, MDel_lru_lookup, HR, HL, decide_True by done.
  split; [by destruct f|split; [|done]].
  unfold MDel. rewrite HR. by destruct f.
Qed.

(** A one-key call that misses in every configured tier passes the key on
    unchanged through both passes. *)
Lemma MGet_passes_miss opts st now g k :
  (LRUCacheOptions opts = None \/ lruData st !! k = None) ->
  (RedisCacheOptions opts = None \/ redis_cmd opts st now g k = None) ->
  mGetFromLRUCache opts st now [k] ∅ ∅ = ([k], ∅, ∅) /\
  mGetFromRedisCache opts st now g [k] ∅ ∅ = ([k], ∅, ∅).
Proof.
  intros HL HR. split.
  - unfold mGetFromLRUCache. destruct (LRUCacheOptions opts) as [lo|]; [|done].
    destruct HL as [?|HL]; [done|]. simpl. unfold lru_step. by rewrite HL.
  - unfold mGetFromRedisCache. destruct (RedisCacheOptions opts) as [o|]; [|done].
    destruct HR as [?|HR]; [done|]. simpl. by rewrite HR.
Qed.

(** Extra X3 ([MDel] then [MGet]): after a delete whose redis DEL was
    applied (whether or not its reply came back), or with no remote tier, a
    read of a deleted key goes to the loader with that key alone and returns
    exactly what the loader returns for it, valid if it returned something;
    without a loader it returns nothing for the key. *)
Theorem MDel_then_MGet_reloads opts st now g s del_ok keys k :
  k ∈ keys -> (RedisCacheOptions opts = None \/ cmd_applied del_ok = true) ->
  match Loader opts with
  | Some ld =>
    loader_keys (MGet opts (MDel opts st del_ok keys).1 now g s [k]).1 = Some [k] /\
    valuesMap (MGet opts (MDel opts st del_ok keys).1 now g s [k]).1 !! k = (ld [k]).1 !! k /\
    validsMap (MGet opts (MDel opts st del_ok keys).1 now g s [k]).1 !! k =
      match (ld [k]).1 !! k with Some _ => Some true | None => None end
  | None =>
    loader_keys (MGet opts (MDel opts st del_ok keys).1 now g s [k]).1 = None /\
    valuesMap (MGet opts (MDel opts st del_ok keys).1 now g s [k]).1 !! k = None /\
    validsMap (MGet opts (MDel opts st del_ok keys).1 now g s [k]).1 !! k = None
  end.
Proof.
  intros Hk Hd. set (st1 := (MDel opts st del_ok keys).1).
  assert (LRUCacheOptions opts = None \/ lruData st1 !! k = None) as HL.
  { unfold st1. rewrite MDel_lru_lookup.
    destruct (LRUCacheOptions opts); [|by left]. right. by rewrite decide_True. }
  assert (RedisCacheOptions opts = None \/ redis_cmd opts st1 now g k = None) as HR.
  { destruct (RedisCacheOptions opts) as [o|] eqn:HR; [right|by left].
    unfold redis_cmd, redis_get. destruct g; [|done]. unfold st1.
    rewrite MDel_redis_lookup, HR. destruct Hd as [? | Hd]; [congruence|].
    by rewrite Hd, bool_decide_eq_true_2. }
  destruct (MGet_passes_miss opts st1 now g k HL HR) as [E1 E2].
  pose proof (MGet_spec opts st1 now g s [k]) as HS. rewrite E1, E2 in HS.
  unfold loader_out in HS. destruct (Loader opts) as [ld|].
  - destruct (MGet opts st1 now g s [k]) as [r st'].
    destruct HS as (HM & _ & HLK & _). simpl. split; [done|].
    destruct (ld [k]) as [values lerr]. simpl.
    pose proof (merge_loaded_lookup values ∅ ∅) as HML. rewrite <- HM in HML.
    destruct HML as [H1 H2]. rewrite H1, H2, !lookup_empty.
    by destruct (values !! k).
  - rewrite merge_loaded_empty in HS.
    destruct (MGet opts st1 now g s [k]) as [r st'].
    destruct HS as (HM & _ & HLK & _). injection HM as H1 H2. simpl.
    by rewrite H1, H2, !lookup_empty.
Qed.

(** *** Helper lemmas on the phases of [MGet] and the write paths *)

(** A write that returns an error returns the redis write error, and some
    [SET] of it failed. *)
Lemma mSet_err_cases opts st now s kvs missKeys e :
  (mSet opts st now s kvs missKeys).2 = Some e ->
  e = ErrRedisWrite /\ exists o, RedisCacheOptions opts = Some o /\
    ((exists k v, kvs !! k = Some v /\
                  set_failed now s (mkRedisKey opts k) (HardTimeout o) = true) \/
     (Millisecond <= RedisMissTimeout o /\
      exists k, k ∈ missKeys /\ set_failed now s (mkRedisKey opts k) (RedisMissTimeout o) = true)).
Proof.
  unfold mSet. destruct (_ && _); [done|].
  destruct (RedisCacheOptions opts) as [o|] eqn:HR.
  - destruct (mSetRedisCache_err opts (mSetLRUCache opts st now kvs missKeys) now s kvs missKeys
                o HR) as [(-> & _)|(-> & Hf)]; [done|].
    intros [= <-]. split; [done|]. by exists o.
  - unfold mSetRedisCache. by rewrite HR.
Qed.

Lemma set_failed_ok now fate rkey d :
  fate rkey = CmdOk -> ~(0 < d < Millisecond) -> set_failed now fate rkey d = false.
Proof.
  intros Hf Hd. unfold set_failed, redis_expiry. rewrite Hf.
  destruct (0 <? d) eqn:E1; [|done]. destruct (d <? Millisecond) eqn:E2; [|done].
  apply Z.ltb_lt in E1, E2. lia.
Qed.

(** A write all of whose commands are applied and acknowledged, with a hard
    timeout redis accepts, returns no error. *)
Lemma mSet_err_all_ok opts st now s kvs missKeys :
  (forall rk, s rk = CmdOk) ->
  (forall o, RedisCacheOptions opts = Some o -> ~(0 < HardTimeout o < Millisecond)) ->
  (mSet opts st now s kvs missKeys).2 = None.
Proof.
  intros Hs Hh. destruct (mSet opts st now s kvs missKeys).2 as [e|] eqn:E; [|done].
  apply mSet_err_cases in E as (_ & o & HR & [(k & v & _ & Hf)|(Hms & k & _ & Hf)]).
  - by rewrite set_failed_ok in Hf by auto.
  - rewrite set_failed_ok in Hf by (auto || lia). discriminate.
Qed.

(** A write none of whose [SET]s is applied leaves the remote tier as it
    was. *)
Lemma mSetRedisCache_dropped opts st now s kvs missKeys :
  (forall rk, cmd_applied (s rk) = false) ->
  redisData (mSetRedisCache opts st now s kvs missKeys).1 = redisData st.
Proof.
  intros Hd. unfold mSetRedisCache. destruct (RedisCacheOptions opts) as [o|]; [|done].
  assert (forall a key b d, (redis_set now s key b d a).1 = a.1) as H1.
  { intros [rd f] key b d. unfold redis_set.
    destruct (redis_expiry now d); [|done]. by rewrite Hd. }
  assert (forall (l : list string) b d a,
            (fold_left (fun a key => redis_set now s (mkRedisKey opts key) b d a) l a).1 = a.1)
    as H2.
  { induction l as [|x l IH]; intros b d a; [done|]. simpl. by rewrite IH, H1. }
  assert (forall a, (map_fold (fun k v a => redis_set now s (mkRedisKey opts k)
            (proto_Marshal (redis_record opts now v)) (HardTimeout o) a) a kvs).1 = a.1) as H3.
  { intros a. apply (map_fold_weak_ind (fun r _ => r.1 = a.1)); [done|].
    intros i x m r _ Hr. by rewrite H1. }
  cbv zeta. cbn [redisData fst]. destruct (Millisecond <=? _); by rewrite ?H2, H3.
Qed.

Lemma mSet_lruData_at opts st now s kvs missKeys k :
  lruData (mSet opts st now s kvs missKeys).1 !! k =
    if bool_decide (kvs = ∅) && bool_decide (missKeys = []) then lruData st !! k
    else lruData (mSetLRUCache opts st now kvs missKeys) !! k.
Proof.
  unfold mSet. destruct (_ && _); [done|]. by rewrite mSetRedisCache_lruData.
Qed.

(** A write that neither stores nor marks [k] leaves both tiers at [k]. *)
Lemma mSet_frame opts st now s kvs missKeys k :
  kvs !! k = None -> k ∉ missKeys ->
  lruData (mSet opts st now s kvs missKeys).1 !! k = lruData st !! k /\
  redisData (mSet opts st now s kvs missKeys).1 !! mkRedisKey opts k =
    redisData st !! mkRedisKey opts k.
Proof.
  intros Hv Hm. split.
  - rewrite mSet_lruData_at. destruct (_ && _); [done|].
    destruct (LRUCacheOptions opts) as [lo|] eqn:HL; [|by rewrite mSetLRUCache_None].
    rewrite (mSetLRUCache_lookup _ _ _ _ _ lo k HL), Hv.
    by rewrite bool_decide_eq_false_2, andb_false_r.
  - unfold mSet. destruct (_ && _); [done|].
    destruct (RedisCacheOptions opts) as [o|] eqn:HR;
      [|unfold mSetRedisCache; rewrite HR; simpl; by rewrite mSetLRUCache_redisData].
    rewrite (mSetRedisCache_lookup _ _ _ _ _ _ o k HR). cbv zeta.
    rewrite Hv, mSetLRUCache_redisData.
    by rewrite bool_decide_eq_false_2, andb_false_r.
Qed.

(** A write that stores [v] at [k] (and does not mark [k]). *)
Lemma mSet_store_at opts st now s kvs missKeys k v :
  kvs !! k = Some v -> k ∉ missKeys ->
  (forall lo, LRUCacheOptions opts = Some lo ->
     lruData (mSet opts st now s kvs missKeys).1 !! k =
       Some (mkItem (proto_Marshal (lru_record now v)) (now + Timeout lo))) /\
  (forall o, RedisCacheOptions opts = Some o ->
     redisData (mSet opts st now s kvs missKeys).1 !! mkRedisKey opts k =
       set_result now s (mkRedisKey opts k) (proto_Marshal (redis_record opts now v))
         (HardTimeout o) (redisData st !! mkRedisKey opts k) /\
     (set_failed now s (mkRedisKey opts k) (HardTimeout o) = true ->
      (mSet opts st now s kvs missKeys).2 = Some ErrRedisWrite)).
Proof.
  intros Hv Hm. assert (kvs <> ∅) as Hne by (intros ->; by rewrite lookup_empty in Hv).
  rewrite mSet_eq_kvs by done. split.
  - intros lo HL. rewrite mSetRedisCache_lruData, (mSetLRUCache_lookup _ _ _ _ _ lo k HL), Hv.
    by rewrite bool_decide_eq_false_2, andb_false_r.
  - intros o HR. split.
    + rewrite (mSetRedisCache_lookup _ _ _ _ _ _ o k HR). cbv zeta.
      rewrite Hv, mSetLRUCache_redisData.
      by rewrite bool_decide_eq_false_2, andb_false_r.
    + intros Hf.
      destruct (mSetRedisCache_err opts (mSetLRUCache opts st now kvs missKeys) now s kvs
                  missKeys o HR) as [(_ & Hall & _)|(He & _)]; [|exact He].
      by rewrite (Hall k v Hv) in Hf.
Qed.

Lemma split_hits_gen_at (vm : gmap string bytes) (hits : list string)
    (rv0 : gmap string bytes) (ek0 : list string) k :
  let '(rv, ek) := fold_left (fun '(redisValues, emptyKeys) (key : string) =>
      match vm !! key with
      | Some v => (<[key := v]> redisValues, emptyKeys)
      | None => (redisValues, emptyKeys ++ [key])
      end) hits (rv0, ek0) in
  rv !! k = (if decide (k ∈ hits)
             then match vm !! k with Some v => Some v | None => rv0 !! k end
             else rv0 !! k) /\
  (k ∈ ek <-> k ∈ ek0 \/ (k ∈ hits /\ vm !! k = None)).
Proof.
  revert rv0 ek0. induction hits as [|h hits IH]; intros rv0 ek0; cbn [fold_left].
  - rewrite decide_False by apply not_elem_of_nil. split; [done|set_solver].
  - destruct (vm !! h) as [b|] eqn:E.
    + specialize (IH (<[h := b]> rv0) ek0).
      destruct (fold_left _ hits _) as [rv ek]. destruct IH as [H1 H2]. split.
      * rewrite H1, lookup_insert.
        destruct (decide (h = k)) as [->|Hne].
        -- rewrite E, (decide_True (P:=k ∈ k :: hits)) by set_solver. by case_decide.
        -- destruct (decide (k ∈ hits)).
           ++ by rewrite (decide_True (P:=k ∈ h :: hits)) by set_solver.
           ++ by rewrite (decide_False (P:=k ∈ h :: hits)) by set_solver.
      * rewrite H2. split; [set_solver|].
        intros [?|[Hin Hk]]; [by left|]. right. split; [|done].
        apply elem_of_cons in Hin as [->|?]; [congruence|done].
    + specialize (IH rv0 (ek0 ++ [h])).
      destruct (fold_left _ hits _) as [rv ek]. destruct IH as [H1 H2]. split.
      * rewrite H1. destruct (decide (h = k)) as [->|Hne].
        -- rewrite E, (decide_True (P:=k ∈ k :: hits)) by set_solver. by case_decide.
        -- destruct (decide (k ∈ hits)).
           ++ by rewrite (decide_True (P:=k ∈ h :: hits)) by set_solver.
           ++ by rewrite (decide_False (P:=k ∈ h :: hits)) by set_solver.
      * rewrite H2. split.
        -- intros [Hin|?]; [|set_solver]. apply elem_of_app in Hin as [?|Hin]; [by left|].
           apply list_elem_of_singleton in Hin as ->. right. split; [set_solver|done].
        -- intros [?|[Hin Hk]]; [left; set_solver|].
           apply elem_of_cons in Hin as [->|?]; [left; set_solver|right; done].
Qed.

Lemma split_hits_at vm hits k :
  k ∈ hits ->
  let '(rv, ek) := split_hits vm hits in rv !! k = vm !! k /\ (k ∈ ek <-> vm !! k = None).
Proof.
  intros Hk. unfold split_hits. pose proof (split_hits_gen_at vm hits ∅ [] k) as H.
  destruct (fold_left _ _ _) as [rv ek]. destruct H as [H1 H2].
  rewrite H1, decide_True by done. split.
  - destruct (vm !! k); [done|apply lookup_empty].
  - rewrite H2. set_solver.
Qed.

(** The warm-up writes a key carried on by the local pass and settled by
    the remote pass: its value if the passes found one, otherwise a
    negative marker. *)
Lemma warm_at opts st now vm lruMissKeys redisMissKeys k lo :
  LRUCacheOptions opts = Some lo -> k ∈ lruMissKeys -> k ∉ redisMissKeys ->
  lruData (warm opts st now vm lruMissKeys redisMissKeys) !! k =
    match vm !! k with
    | Some v => Some (mkItem (proto_Marshal (lru_record now v)) (now + Timeout lo))
    | None => if MissTimeout lo =? 0 then lruData st !! k
              else Some (mkItem missBytes (now + MissTimeout lo))
    end.
Proof.
  intros HL Hk Hn. unfold warm.
  assert (k ∈ substract lruMissKeys redisMissKeys) as Hs.
  { unfold substract. by apply list_elem_of_filter. }
  destruct (substract _ _) as [|h hs]; [set_solver|].
  pose proof (split_hits_at vm (h :: hs) k Hs) as HS.
  destruct (split_hits _ _) as [rv ek]. destruct HS as [H1 H2].
  rewrite (mSetLRUCache_lookup _ _ _ _ _ lo k HL), H1.
  destruct (vm !! k) as [v|].
  - rewrite bool_decide_eq_false_2, andb_false_r; [done|]. rewrite H2. done.
  - rewrite bool_decide_eq_true_2 by (by apply H2). by destruct (MissTimeout lo =? 0).
Qed.

Lemma warm_notin opts st now vm lruMissKeys redisMissKeys k :
  k ∉ lruMissKeys ->
  lruData (warm opts st now vm lruMissKeys redisMissKeys) !! k = lruData st !! k.
Proof.
  intros Hk. unfold warm.
  assert (k ∉ substract lruMissKeys redisMissKeys) as Hn.
  { unfold substract. rewrite list_elem_of_filter. tauto. }
  destruct (substract _ _) as [|h hs]; [done|].
  pose proof (split_hits_other vm (h :: hs) k Hn) as HS.
  destruct (split_hits _ _) as [rv ek]. destruct HS as [H1 H2].
  destruct (LRUCacheOptions opts) as [lo|] eqn:HL; [|by rewrite mSetLRUCache_None].
  rewrite (mSetLRUCache_lookup _ _ _ _ _ lo k HL), H1.
  by rewrite bool_decide_eq_false_2, andb_false_r.
Qed.

(** At a key the loader returns nothing for and that is not left for it,
    the final state of [MGet] is the state after the warm-up. *)
Lemma MGet_state_at opts st now g s keys k m1 vm1 va1 m2 vm2 va2 :
  mGetFromLRUCache opts st now keys ∅ ∅ = (m1, vm1, va1) ->
  mGetFromRedisCache opts st now g m1 vm1 va1 = (m2, vm2, va2) ->
  loaded_entry opts (MGet opts st now g s keys).1 k = None -> k ∉ m2 ->
  lruData (MGet opts st now g s keys).2 !! k = lruData (warm opts st now vm2 m1 m2) !! k /\
  redisData (MGet opts st now g s keys).2 !! mkRedisKey opts k =
    redisData st !! mkRedisKey opts k.
Proof.
  intros E1 E2 Hn Hk. rewrite (MGet_loaded_entry opts st now g s keys k _ _ _ _ _ _ E1 E2) in Hn.
  destruct (MGet_parts opts st now g s keys _ _ _ _ _ _ E1 E2) as (_ & _ & _ & _ & Hst).
  rewrite Hst. destruct (loader_out opts m2) as [[values [e|]]|].
  - by rewrite warm_redisData.
  - assert (k ∉ filter (fun key => values !! key = None) m2) as Hf
      by (rewrite list_elem_of_filter; tauto).
    destruct (mSet_frame opts (warm opts st now vm2 m1 m2) now s values
                (filter (fun key => values !! key = None) m2) k Hn Hf) as [-> ->].
    by rewrite warm_redisData.
  - by rewrite warm_redisData.
Qed.

Lemma mSet_err_noredis opts st now s kvs missKeys :
  RedisCacheOptions opts = None -> (mSet opts st now s kvs missKeys).2 = None.
Proof.
  intros HR. unfold mSet. destruct (_ && _); [done|]. unfold mSetRedisCache. by rewrite HR.
Qed.

Lemma loader_out_some opts m2 p :
  loader_out opts m2 = Some p -> m2 <> [] /\ exists ld, Loader opts = Some ld /\ p = ld m2.
Proof.
  unfold loader_out. destruct m2 as [|y ys]; [done|].
  destruct (Loader opts) as [ld|]; [|done]. intros [= <-]. split; [done|]. by exists ld.
Qed.

(** *** What [MGet] does *)

(** Extra X4 ([MGet]): a key that was not asked for is sent to neither the
    remote tier nor the loader; it gets an entry in the returned maps only if
    the loader, called for other keys, returns it (its value, marked valid);
    when the loader does not return it, it is left as it was in both tiers. *)
Theorem MGet_frame_unrequested opts st now g s keys k :
  k ∉ keys ->
  (k ∉ redis_keys (MGet opts st now g s keys).1) /\
  (forall ks, loader_keys (MGet opts st now g s keys).1 = Some ks -> k ∉ ks) /\
  valuesMap (MGet opts st now g s keys).1 !! k =
    loaded_entry opts (MGet opts st now g s keys).1 k /\
  validsMap (MGet opts st now g s keys).1 !! k =
    match loaded_entry opts (MGet opts st now g s keys).1 k with
    | Some _ => Some true | None => None end /\
  (loaded_entry opts (MGet opts st now g s keys).1 k = None ->
   lruData (MGet opts st now g s keys).2 !! k = lruData st !! k /\
   redisData (MGet opts st now g s keys).2 !! mkRedisKey opts k =
     redisData st !! mkRedisKey opts k).
Proof.
  intros Hk.
  destruct (mGetFromLRUCache opts st now keys ∅ ∅) as [[m1 vm1] va1] eqn:E1.
  destruct (mGetFromRedisCache opts st now g m1 vm1 va1) as [[m2 vm2] va2] eqn:E2.
  destruct (mGetFromLRUCache_facts _ _ _ _ _ _ _ _ _ E1) as [Hs1 Hf1].
  destruct (mGetFromRedisCache_facts _ _ _ _ _ _ _ _ _ _ E2) as [Hs2 Hf2].
  assert (k ∉ m1) as Hk1 by (intros ?%Hs1; done).
  assert (k ∉ m2) as Hk2 by (intros ?%Hs2; done).
  destruct (MGet_parts opts st now g s keys _ _ _ _ _ _ E1 E2) as (_ & HRK & HLK & _).
  destruct (MGet_maps_loaded opts st now g s keys k _ _ _ _ _ _ E1 E2) as [HV HA].
  split; [|split; [|split; [|split]]].
  - rewrite HRK. destruct (RedisCacheOptions opts); [done|apply not_elem_of_nil].
  - intros ks. rewrite HLK. destruct (loader_out opts m2); [|done]. by intros [= <-].
  - rewrite HV. destruct (loaded_entry _ _ k); [done|].
    destruct (Hf2 k Hk1) as [-> _]. destruct (Hf1 k Hk) as [-> _]. apply lookup_empty.
  - rewrite HA. destruct (loaded_entry _ _ k); [done|].
    destruct (Hf2 k Hk1) as [_ ->]. destruct (Hf1 k Hk) as [_ ->]. apply lookup_empty.
  - intros Hn.
    destruct (MGet_state_at opts st now g s keys k _ _ _ _ _ _ E1 E2 Hn Hk2) as [HL HR].
    split; [|exact HR]. rewrite HL. by apply warm_notin.
Qed.

(** Extra X5 ([MGet]): [MGet] reports an error only after it has called
    the loader, and the error is the loader's or, when a [SET] of the redis
    write-back fails, the write error; a failed remote GET is never
    reported. A failing [SET] is that of a key the loader returned (with the
    hard timeout) or the negative marker of a key it was asked for and did
    not return (with the miss timeout). *)
Theorem MGet_error_source opts st now g s keys e :
  err (MGet opts st now g s keys).1 = Some e ->
  (exists ks, loader_keys (MGet opts st now g s keys).1 = Some ks) /\
  ((exists msg, e = ErrLoader msg) \/
   (e = ErrRedisWrite /\ exists o k, RedisCacheOptions opts = Some o /\
      ((exists v, loaded_entry opts (MGet opts st now g s keys).1 k = Some v /\
                  set_failed now s (mkRedisKey opts k) (HardTimeout o) = true) \/
       (exists ks, loader_keys (MGet opts st now g s keys).1 = Some ks /\ k ∈ ks /\
                   loaded_entry opts (MGet opts st now g s keys).1 k = None /\
                   Millisecond <= RedisMissTimeout o /\
                   set_failed now s (mkRedisKey opts k) (RedisMissTimeout o) = true)))).
Proof.
  destruct (mGetFromLRUCache opts st now keys ∅ ∅) as [[m1 vm1] va1] eqn:E1.
  destruct (mGetFromRedisCache opts st now g m1 vm1 va1) as [[m2 vm2] va2] eqn:E2.
  pose proof (fun k => MGet_loaded_entry opts st now g s keys k _ _ _ _ _ _ E1 E2) as HLE.
  destruct (MGet_parts opts st now g s keys _ _ _ _ _ _ E1 E2) as (_ & _ & HLK & HE & _).
  rewrite HE, HLK. setoid_rewrite HLE.
  destruct (loader_out opts m2) as [[values [msg|]]|]; [| |done].
  - intros [= <-]. split; [by eexists|]. left. by eexists.
  - intros Hm. split; [by eexists|]. right.
    apply mSet_err_cases in Hm as (-> & o & HR & Hc). split; [done|].
    destruct Hc as [(k & v & Hv & Hf)|(Hms & k & Hk & Hf)].
    + exists o, k. split; [done|]. left. by exists v.
    + exists o, k. split; [done|]. right. exists m2.
      apply list_elem_of_filter in Hk as [Hn Hk]. done.
Qed.

(** Extra X6 ([MGet]): the remote tier is written only by the write-back
    after a successful loader call: when the loader is not called, fails, or
    none of the redis [SET]s of the write-back is applied, the remote tier is
    left as it was. *)
Theorem MGet_remote_unchanged opts st now g s keys :
  (loader_keys (MGet opts st now g s keys).1 = None \/
   (exists msg, err (MGet opts st now g s keys).1 = Some (ErrLoader msg)) \/
   (forall rk, s rk = CmdDropped)) ->
  redisData (MGet opts st now g s keys).2 = redisData st.
Proof.
  destruct (mGetFromLRUCache opts st now keys ∅ ∅) as [[m1 vm1] va1] eqn:E1.
  destruct (mGetFromRedisCache opts st now g m1 vm1 va1) as [[m2 vm2] va2] eqn:E2.
  destruct (MGet_parts opts st now g s keys _ _ _ _ _ _ E1 E2) as (_ & _ & HLK & HE & Hst).
  rewrite HLK, HE, Hst. destruct (loader_out opts m2) as [[values [msg|]]|];
    try (intros _; apply warm_redisData).
  intros [?|[[msg Hm]|Hd]]; [done| |].
  - apply mSet_err_cases in Hm as [? _]. discriminate.
  - unfold mSet. destruct (_ && _); [apply warm_redisData|].
    rewrite mSetRedisCache_dropped by (intros rk; by rewrite Hd).
    rewrite mSetLRUCache_redisData. apply warm_redisData.
Qed.

(** Extra X7 ([MGet]): an entry the loader returns without error (asked for
    or not) is returned as valid and written back: to the local tier as an
    uncompressed record fresh for its timeout, and to the remote tier by a
    [SET] with the hard timeout, whose entry is the new record when redis
    applies it and the old one otherwise. When that [SET] fails, the write
    error is returned; the call returns no error when there is no remote tier
    or when every redis command is applied and acknowledged and the hard
    timeout is not strictly between 0 and 1ms. *)
Theorem MGet_writes_back_loaded opts st now g s keys ks ld k v :
  Loader opts = Some ld -> loader_keys (MGet opts st now g s keys).1 = Some ks ->
  (ld ks).1 !! k = Some v -> (ld ks).2 = None ->
  valuesMap (MGet opts st now g s keys).1 !! k = Some v /\
  validsMap (MGet opts st now g s keys).1 !! k = Some true /\
  ((RedisCacheOptions opts = None \/
    ((forall rk, s rk = CmdOk) /\
     forall o, RedisCacheOptions opts = Some o -> ~(0 < HardTimeout o < Millisecond))) ->
   err (MGet opts st now g s keys).1 = None) /\
  (forall lo, LRUCacheOptions opts = Some lo ->
     lruData (MGet opts st now g s keys).2 !! k =
       Some (mkItem (proto_Marshal (lru_record now v)) (now + Timeout lo))) /\
  (forall o, RedisCacheOptions opts = Some o ->
     redisData (MGet opts st now g s keys).2 !! mkRedisKey opts k =
       set_result now s (mkRedisKey opts k) (proto_Marshal (redis_record opts now v))
         (HardTimeout o) (redisData st !! mkRedisKey opts k) /\
     (set_failed now s (mkRedisKey opts k) (HardTimeout o) = true ->
      err (MGet opts st now g s keys).1 = Some ErrRedisWrite)).
Proof.
  intros HLd Hks Hv Hl.
  destruct (mGetFromLRUCache opts st now keys ∅ ∅) as [[m1 vm1] va1] eqn:E1.
  destruct (mGetFromRedisCache opts st now g m1 vm1 va1) as [[m2 vm2] va2] eqn:E2.
  destruct (MGet_parts opts st now g s keys _ _ _ _ _ _ E1 E2) as (HM & _ & HLK & HE & Hst).
  destruct (loader_out opts m2) as [p|] eqn:EO; [|congruence].
  destruct (loader_out_some _ _ _ EO) as [_ [ld' [HLd' ->]]].
  rewrite HLd in HLd'. injection HLd' as <-. rewrite Hks in HLK. injection HLK as <-.
  destruct (ld ks) as [values lerr]. simpl in Hv, Hl. subst lerr.
  assert (k ∉ filter (fun key => values !! key = None) ks) as Hf
    by (rewrite list_elem_of_filter; intros [? _]; congruence).
  destruct (mSet_store_at opts (warm opts st now vm2 m1 ks) now s values _ k v Hv Hf)
    as (HSL & HSR).
  pose proof (merge_loaded_lookup values vm2 va2) as HML. rewrite <- HM in HML.
  destruct HML as [H1 H2]. rewrite H1, H2, Hv, HE, Hst.
  split; [done|split; [done|split; [|split]]].
  - intros [HR|[Hs Hh]]; [by apply mSet_err_noredis|by apply mSet_err_all_ok].
  - intros lo HL. by apply HSL.
  - intros o HR. destruct (HSR o HR) as [HR1 HR2]. split; [|exact HR2].
    by rewrite HR1, warm_redisData.
Qed.

(** A key absent from the local tier or whose local item has expired is
    carried on by the local pass. *)
Lemma lru_view_carried st now k :
  (lruData st !! k = None \/
   exists it, lruData st !! k = Some it /\ item_Expired now it = true) ->
  (lru_view st now k).1.1 = true.
Proof.
  unfold lru_view. intros [->|[it [-> Hx]]]; [done|].
  destruct (item_value it); simpl; by rewrite ?Hx.
Qed.

Lemma mGetFromLRUCache_carried opts st now keys m1 vm1 va1 k :
  mGetFromLRUCache opts st now keys ∅ ∅ = (m1, vm1, va1) -> k ∈ keys ->
  (LRUCacheOptions opts = None \/ lruData st !! k = None \/
   exists it, lruData st !! k = Some it /\ item_Expired now it = true) ->
  k ∈ m1 /\ va1 !! k = None.
Proof.
  intros E1 Hk Hc.
  assert (k ∈ m1) as Hm.
  { destruct (LRUCacheOptions opts) as [lo|] eqn:HL.
    - pose proof (mGetFromLRUCache_Some opts st now keys ∅ ∅ lo HL) as HS.
      rewrite E1 in HS. destruct HS as (-> & _ & _).
      apply list_elem_of_filter. split; [|done].
      apply lru_view_carried. destruct Hc as [?|Hc]; [discriminate|exact Hc].
    - rewrite mGetFromLRUCache_None in E1 by done. by injection E1 as <- _ _. }
  split; [done|]. exact (mGetFromLRUCache_miss_invalid _ _ _ _ _ _ _ _ E1 Hm).
Qed.

Lemma redis_view_fresh o now data :
  now - ModifyTime data * Second <= SoftTimeout o ->
  redis_view o now (Some (BlobProto data)) = (false, fun _ => Some (remote_raw data), true).
Proof.
  intros H. unfold redis_view. simpl. apply Z.leb_le in H. by rewrite H.
Qed.

Lemma MGet_single_fresh opts st now g s k lo d e :
  LRUCacheOptions opts = Some lo -> lruData st !! k = Some (mkItem (BlobProto d) e) ->
  now <= e ->
  valuesMap (MGet opts st now g s [k]).1 !! k = Some (Raw d) /\
  validsMap (MGet opts st now g s [k]).1 !! k = Some true.
Proof.
  intros HL Hk He.
  assert (mGetFromLRUCache opts st now [k] ∅ ∅ = ([], <[k := Raw d]> ∅, <[k := true]> ∅)) as E.
  { unfold mGetFromLRUCache. rewrite HL. cbn [fold_left]. unfold lru_step. rewrite Hk.
    unfold item_Expired. simpl. assert ((e <? now) = false) as -> by (apply Z.ltb_ge; lia).
    reflexivity. }
  unfold MGet. rewrite E. simpl. by rewrite !lookup_insert_eq.
Qed.

(** Extra X8 ([MGet]): a key missing or expired in the local tier and found
    fresh (within the soft timeout) in the remote tier is copied into the
    local tier as a record of the decompressed payload, fresh for the local
    timeout, unless the loader, called in the same call for other keys,
    returns the key. *)
Theorem MGet_copies_remote_hit_to_local opts st now s keys k lo o data :
  LRUCacheOptions opts = Some lo -> RedisCacheOptions opts = Some o -> k ∈ keys ->
  (lruData st !! k = None \/
   exists it, lruData st !! k = Some it /\ item_Expired now it = true) ->
  redis_get st now (mkRedisKey opts k) = Some (BlobProto data) ->
  now - ModifyTime data * Second <= SoftTimeout o ->
  loaded_entry opts (MGet opts st now true s keys).1 k = None ->
  lruData (MGet opts st now true s keys).2 !! k =
    Some (mkItem (proto_Marshal (lru_record now (remote_raw data))) (now + Timeout lo)).
Proof.
  intros HL HR Hk Hc Hg Hsoft Hn.
  destruct (mGetFromLRUCache opts st now keys ∅ ∅) as [[m1 vm1] va1] eqn:E1.
  destruct (mGetFromRedisCache opts st now true m1 vm1 va1) as [[m2 vm2] va2] eqn:E2.
  destruct (mGetFromLRUCache_carried _ _ _ _ _ _ _ k E1 Hk (or_intror Hc)) as [Hm1 _].
  assert (redis_view o now (redis_cmd opts st now true k) =
          (false, fun _ => Some (remote_raw data), true)) as EV.
  { unfold redis_cmd. rewrite Hg. by apply redis_view_fresh. }
  pose proof (mGetFromRedisCache_Some opts st now true m1 vm1 va1 o HR) as HS.
  rewrite E2 in HS. destruct HS as (Hm2 & Hv2 & _).
  assert (k ∉ m2) as Hk2.
  { rewrite Hm2, list_elem_of_filter, EV. simpl. intros [? _]. discriminate. }
  destruct (MGet_state_at opts st now true s keys k _ _ _ _ _ _ E1 E2 Hn Hk2) as [-> _].
  rewrite (warm_at _ _ _ _ _ _ k lo HL Hm1 Hk2), Hv2, decide_True, EV by done.
  reflexivity.
Qed.

(** Extra X9 ([MGet]): when the local record of a key has expired, the
    remote tier holds a negative marker for it, and the loader, if called in
    the same call for other keys, does not return the key, the expired
    payload is returned (not valid) and written back to the local tier as a
    fresh record; a read of the key within the local timeout then returns
    the expired payload as valid. *)
Theorem MGet_remote_marker_refreshes_stale opts st now s keys k lo o it d now2 g2 s2 :
  LRUCacheOptions opts = Some lo -> RedisCacheOptions opts = Some o -> k ∈ keys ->
  lruData st !! k = Some it -> item_value it = BlobProto d -> item_Expired now it = true ->
  redis_get st now (mkRedisKey opts k) = Some missBytes ->
  loaded_entry opts (MGet opts st now true s keys).1 k = None ->
  valuesMap (MGet opts st now true s keys).1 !! k = Some (Raw d) /\
  validsMap (MGet opts st now true s keys).1 !! k = None /\
  lruData (MGet opts st now true s keys).2 !! k =
    Some (mkItem (proto_Marshal (lru_record now (Raw d))) (now + Timeout lo)) /\
  (Second <= now -> now2 <= now + Timeout lo ->
   valuesMap (MGet opts (MGet opts st now true s keys).2 now2 g2 s2 [k]).1 !! k = Some (Raw d) /\
   validsMap (MGet opts (MGet opts st now true s keys).2 now2 g2 s2 [k]).1 !! k = Some true).
Proof.
  intros HL HR Hk Hit Hv Hx Hg Hn.
  assert (lru_view st now k = (true, Some (Raw d), false)) as EL.
  { unfold lru_view. rewrite Hit, Hv. simpl. by rewrite Hx. }
  assert (redis_view o now (redis_cmd opts st now true k) = (false, fun x => x, false)) as EV.
  { unfold redis_cmd. rewrite Hg. reflexivity. }
  destruct (mGetFromLRUCache opts st now keys ∅ ∅) as [[m1 vm1] va1] eqn:E1.
  destruct (mGetFromRedisCache opts st now true m1 vm1 va1) as [[m2 vm2] va2] eqn:E2.
  pose proof (mGetFromLRUCache_Some opts st now keys ∅ ∅ lo HL) as HS1.
  rewrite E1 in HS1. destruct HS1 as (Hm1 & Hv1 & Ha1).
  assert (k ∈ m1) as Hk1 by (rewrite Hm1, list_elem_of_filter, EL; done).
  pose proof (mGetFromRedisCache_Some opts st now true m1 vm1 va1 o HR) as HS2.
  rewrite E2 in HS2. destruct HS2 as (Hm2 & Hv2 & Ha2).
  assert (k ∉ m2) as Hk2.
  { rewrite Hm2, list_elem_of_filter, EV. simpl. intros [? _]. discriminate. }
  assert (vm2 !! k = Some (Raw d)) as Hvm2.
  { rewrite Hv2, decide_True, EV by done. simpl. rewrite Hv1, decide_True, EL by done.
    reflexivity. }
  destruct (MGet_maps_loaded opts st now true s keys k _ _ _ _ _ _ E1 E2) as [HV HA].
  rewrite Hn in HV, HA.
  destruct (MGet_state_at opts st now true s keys k _ _ _ _ _ _ E1 E2 Hn Hk2) as [HLk _].
  rewrite (warm_at _ _ _ _ _ _ k lo HL Hk1 Hk2), Hvm2 in HLk.
  split; [by rewrite HV|split; [|split; [exact HLk|]]].
  - rewrite HA, Ha2, decide_True, EV by done. simpl.
    rewrite Ha1, decide_True, EL by done. apply lookup_empty.
  - intros Hs Ht. rewrite proto_Marshal_time in HLk by (apply now_seconds_nonzero; done).
    apply (MGet_single_fresh _ _ _ _ _ _ lo _ _ HL HLk). done.
Qed.

(** Extra X10 ([MSet]): when the redis [SET] of a written key fails
    (redis rejects it, as it does a hard timeout strictly between 0 and 1ms,
    or its reply is lost), [MSet] returns the write error. The pipeline is
    not a transaction: the [SET] of each key is applied or not on its own,
    so the remote entry of every written key is the new record if its own
    [SET] was applied and the old entry otherwise; and the local tier has
    stored every value. *)
Theorem MSet_remote_failure opts st now s kvs o k v :
  RedisCacheOptions opts = Some o -> kvs !! k = Some v ->
  set_failed now s (mkRedisKey opts k) (HardTimeout o) = true ->
  (MSet opts st now s kvs).2 = Some ErrRedisWrite /\
  (forall j w, kvs !! j = Some w ->
     redisData (MSet opts st now s kvs).1 !! mkRedisKey opts j =
       set_result now s (mkRedisKey opts j) (proto_Marshal (redis_record opts now w))
         (HardTimeout o) (redisData st !! mkRedisKey opts j)) /\
  (forall lo, LRUCacheOptions opts = Some lo -> forall j w, kvs !! j = Some w ->
     lruData (MSet opts st now s kvs).1 !! j =
       Some (mkItem (proto_Marshal (lru_record now w)) (now + Timeout lo))).
Proof.
  intros HR Hv Hf. unfold MSet.
  destruct (mSet_store_at opts st now s kvs [] k v Hv (not_elem_of_nil k))
    as (_ & HSR).
  split; [|split].
  - exact (proj2 (HSR o HR) Hf).
  - intros j w Hw.
    destruct (mSet_store_at opts st now s kvs [] j w Hw (not_elem_of_nil j)) as (_ & HSRj).
    exact (proj1 (HSRj o HR)).
  - intros lo HL j w Hw.
    destruct (mSet_store_at opts st now s kvs [] j w Hw (not_elem_of_nil j)) as (HSLj & _).
    exact (HSLj lo HL).
Qed.

(** Extra X11 ([MGet]): a call whose keys all have an unexpired, readable
    record in the local tier (a value or a negative marker) changes no tier,
    sends nothing to redis, does not call the loader and returns no error. *)
Theorem MGet_local_hits_no_effects opts st now g s keys lo :
  LRUCacheOptions opts = Some lo ->
  (forall k, k ∈ keys -> exists it, lruData st !! k = Some it /\
     item_Expired now it = false /\ item_value it <> BlobMalformed) ->
  (MGet opts st now g s keys).2 = st /\
  redis_keys (MGet opts st now g s keys).1 = [] /\
  loader_keys (MGet opts st now g s keys).1 = None /\
  err (MGet opts st now g s keys).1 = None.
Proof.
  intros HL Hall.
  destruct (mGetFromLRUCache opts st now keys ∅ ∅) as [[m1 vm1] va1] eqn:E1.
  pose proof (mGetFromLRUCache_Some opts st now keys ∅ ∅ lo HL) as HS.
  rewrite E1 in HS. destruct HS as (Hm1 & _ & _).
  assert (m1 = []) as ->.
  { apply elem_of_nil_inv. intros j Hj. rewrite Hm1, list_elem_of_filter in Hj.
    destruct Hj as [Hc Hj]. destruct (Hall j Hj) as (it & Hit & Hx & Hb).
    revert Hc. unfold lru_view. rewrite Hit.
    destruct (item_value it); simpl; rewrite ?Hx; done. }
  pose proof (mGetFromRedisCache_nil opts st now g vm1 va1) as E2.
  destruct (MGet_parts opts st now g s keys _ _ _ _ _ _ E1 E2)
    as (_ & HRK & HLK & HE & Hst).
  rewrite Hst, HRK, HLK, HE. simpl. by destruct (RedisCacheOptions opts).
Qed.

(** Extra X12 ([MGet]): the returned validity map never holds [false]:
    keys that are not fresh are left out of it. *)
Theorem MGet_never_invalid opts st now g s keys k :
  validsMap (MGet opts st now g s keys).1 !! k <> Some false.
Proof.
  destruct (mGetFromLRUCache opts st now keys ∅ ∅) as [[m1 vm1] va1] eqn:E1.
  destruct (mGetFromRedisCache opts st now g m1 vm1 va1) as [[m2 vm2] va2] eqn:E2.
  destruct (MGet_parts opts st now g s keys _ _ _ _ _ _ E1 E2) as (HM & _).
  assert (forall j, va1 !! j <> Some false) as I1.
  { intros j. destruct (LRUCacheOptions opts) as [lo|] eqn:HL.
    - pose proof (mGetFromLRUCache_Some opts st now keys ∅ ∅ lo HL) as HS.
      rewrite E1 in HS. destruct HS as (_ & _ & Ha). rewrite Ha, lookup_empty.
      by case_decide; [destruct (lru_view st now j).2|].
    - rewrite mGetFromLRUCache_None in E1 by done. injection E1 as _ _ <-.
      by rewrite lookup_empty. }
  assert (forall j, va2 !! j <> Some false) as I2.
  { intros j. destruct (RedisCacheOptions opts) as [o|] eqn:HR.
    - pose proof (mGetFromRedisCache_Some opts st now g m1 vm1 va1 o HR) as HS.
      rewrite E2 in HS. destruct HS as (_ & _ & Ha). rewrite Ha.
      case_decide; [destruct (redis_view _ _ _).2|]; [done|apply I1|apply I1].
    - rewrite mGetFromRedisCache_None in E2 by done. injection E2 as _ _ <-. apply I1. }
  pose proof (merge_loaded_lookup
    (match loader_out opts m2 with Some (values, _) => values | None => ∅ end) vm2 va2) as HL.
  rewrite <- HM in HL. destruct HL as [_ H2]. rewrite H2.
  destruct (_ !! k); [done|apply I2].
Qed.


(** *** Keys, validation and compression *)

Lemma string_app_assoc (a b c : string) : (a +:+ b) +:+ c = a +:+ b +:+ c.
Proof.
  induction a as [|x a IH]; [reflexivity|].
  change (String x ((a +:+ b) +:+ c) = String x (a +:+ b +:+ c)). by rewrite IH.
Qed.

(** Extra X14 ([mkRedisKey]): within one cache distinct keys get distinct
    redis keys, but the namespaces of two caches overlap when one prefix is
    the other followed by ["_"] and more: key [q_k] of the first cache and
    key [k] of the second are the same redis key. *)
Theorem mkRedisKey_namespaces opts1 opts2 o1 o2 q k k1 k2 :
  RedisCacheOptions opts1 = Some o1 -> RedisCacheOptions opts2 = Some o2 ->
  Prefix o2 = Prefix o1 +:+ "_" +:+ q ->
  (k1 <> k2 -> mkRedisKey opts1 k1 <> mkRedisKey opts1 k2) /\
  mkRedisKey opts1 (q +:+ "_" +:+ k) = mkRedisKey opts2 k.
Proof.
  intros H1 H2 HP. split; [intros Hne Heq; by apply Hne, (mkRedisKey_inj opts1)|].
  unfold mkRedisKey. rewrite H1, H2, HP, !string_app_assoc. reflexivity.
Qed.

(** Extra X15 ([NewCache], [Options.isValid]): whether [NewCache] panics,
    and with which error, does not depend on the loader (which may be nil)
    or on the compression type (which may be any value). *)
Theorem NewCache_ignores_loader_compression name o ld t e :
  NewCache name (Some o) = Panic e <->
  NewCache name (Some (mkOptions (LRUCacheOptions o) (RedisCacheOptions o) ld t)) = Panic e.
Proof.
  unfold NewCache. destruct (String.eqb name ""); [tauto|].
  assert (options_isValid (Some o) =
          options_isValid (Some (mkOptions (LRUCacheOptions o) (RedisCacheOptions o) ld t)))
    as <- by (destruct o; reflexivity).
  destruct (options_isValid (Some o)); [tauto|]. split; discriminate.
Qed.

(** Extra X16 ([compress], [decompress]): with a snappy codec that decodes
    what it encodes, decompressing what [compress] produced gives the bytes
    back for the None and Snappy types; for any other type [compress] keeps
    the bytes but [decompress] fails. *)
Theorem decompress_compress t bs :
  (forall b, snappy_decode (snappy_encode b) = Some b) ->
  decompress t (compress t bs) =
    (if (t =? CompressionType_None) || (t =? CompressionType_Snappy) then Some bs else None) /\
  (~(t = CompressionType_None \/ t = CompressionType_Snappy) -> compress t bs = bs).
Proof.
  intros Hs. unfold decompress, compress. split.
  - destruct (t =? CompressionType_None); [done|].
    destruct (t =? CompressionType_Snappy); [apply Hs|done].
  - intros Ht. rewrite (proj2 (Z.eqb_neq t _)) by tauto.
    by rewrite (proj2 (Z.eqb_neq t _)) by tauto.
Qed.



End Extras.

(** ** Witnesses of the further properties *)

Lemma MDel_removes_keys_witness :
  (MDel opts_both st_stale_a_remote_b CmdOk ["a"]).2 = None /\
  lruData (MDel opts_both st_stale_a_remote_b CmdOk ["a"]).1 !! "a" = None.
Proof.
  destruct (MDel_removes_keys opts_both st_stale_a_remote_b CmdOk ["a"] "a"
              ltac:(right; reflexivity)) as (H1 & H2 & _).
  split; [exact H1|]. apply H2; [discriminate|constructor].
Defined.

Lemma MDel_failed_delete_witness :
  (MDel opts_both st_stale_a_remote_b CmdLost ["a"]).2 = Some ErrRedisWrite /\
  redisData (MDel opts_both st_stale_a_remote_b CmdLost ["a"]).1 =
    redisData (MDel opts_both st_stale_a_remote_b CmdOk ["a"]).1 /\
  lruData (MDel opts_both st_stale_a_remote_b CmdLost ["a"]).1 !! "a" = None.
Proof.
  exact (MDel_failed_delete opts_both st_stale_a_remote_b CmdLost ["a"] "a" test_redis test_lru
           eq_refl eq_refl ltac:(constructor) ltac:(discriminate)).
Defined.

Lemma MDel_then_MGet_reloads_witness :
  loader_keys (MGet opts_both (MDel opts_both st_stale_a_remote_b CmdOk ["a"]).1
                 (10 * Second) true all_ok ["a"]).1 = Some ["a"].
Proof.
  destruct (MDel_then_MGet_reloads opts_both st_stale_a_remote_b (10 * Second) true all_ok CmdOk
              ["a"] "a" ltac:(constructor) ltac:(right; reflexivity)) as (H & _).
  exact H.
Defined.

Lemma MGet_frame_unrequested_witness :
  lruData (MGet opts_both st_stale_a_remote_b (10 * Second) true all_ok ["b"]).2 !! "a" =
    lruData st_stale_a_remote_b !! "a".
Proof.
  destruct (MGet_frame_unrequested opts_both st_stale_a_remote_b (10 * Second) true all_ok
              ["b"] "a") as (_ & _ & _ & _ & H).
  - apply not_elem_of_cons. split; [discriminate|apply not_elem_of_nil].
  - apply H. vm_compute. reflexivity.
Defined.

Lemma MGet_error_source_witness :
  exists ks, loader_keys (MGet opts_failing st_empty (10 * Second) true all_ok ["a"]).1 = Some ks.
Proof.
  apply (proj1 (MGet_error_source opts_failing st_empty (10 * Second) true all_ok ["a"]
                  (ErrLoader "loader error") ltac:(vm_compute; reflexivity))).
Defined.

Lemma MGet_remote_unchanged_witness :
  redisData (MGet opts_both st_empty (10 * Second) true (fun _ => CmdDropped) ["a"]).2 =
    redisData st_empty.
Proof.
  apply (MGet_remote_unchanged opts_both st_empty (10 * Second) true (fun _ => CmdDropped) ["a"]).
  right. right. intros rk. reflexivity.
Defined.

Lemma MGet_writes_back_loaded_witness :
  valuesMap (MGet opts_stray st_empty (10 * Second) true all_ok ["a"]).1 !! "a" = Some val_b /\
  validsMap (MGet opts_stray st_empty (10 * Second) true all_ok ["a"]).1 !! "a" = Some true.
Proof.
  destruct (MGet_writes_back_loaded opts_stray st_empty (10 * Second) true all_ok ["a"] ["a"]
              stray_loader "a" val_b) as (H1 & H2 & _).
  - reflexivity.
  - vm_compute. reflexivity.
  - vm_compute. reflexivity.
  - reflexivity.
  - split; [exact H1|exact H2].
Defined.

Lemma MGet_copies_remote_hit_to_local_witness :
  lruData (MGet opts_both st_stale_a_remote_b (10 * Second) true all_ok ["a"]).2 !! "a" =
    Some (mkItem (proto_Marshal (lru_record (10 * Second) (remote_raw rec_b)))
            (10 * Second + Timeout test_lru)).
Proof.
  apply (MGet_copies_remote_hit_to_local opts_both st_stale_a_remote_b (10 * Second) all_ok ["a"]
           "a" test_lru test_redis rec_b).
  - reflexivity.
  - reflexivity.
  - constructor.
  - right. exists item_stale_a. split; vm_compute; reflexivity.
  - vm_compute. reflexivity.
  - vm_compute. discriminate.
  - vm_compute. reflexivity.
Defined.

Lemma MGet_remote_marker_refreshes_stale_witness :
  valuesMap (MGet opts_both st_stale_a_remote_miss (2 * Second) true all_ok ["a"]).1 !! "a" =
    Some val_a /\
  validsMap (MGet opts_both (MGet opts_both st_stale_a_remote_miss (2 * Second) true all_ok ["a"]).2
               (2 * Second) true all_ok ["a"]).1 !! "a" = Some true.
Proof.
  destruct (MGet_remote_marker_refreshes_stale opts_both st_stale_a_remote_miss (2 * Second) all_ok
              ["a"] "a" test_lru test_redis item_stale_a rec_a (2 * Second) true all_ok)
    as (H1 & _ & _ & H4).
  - reflexivity.
  - reflexivity.
  - constructor.
  - vm_compute. reflexivity.
  - reflexivity.
  - vm_compute. reflexivity.
  - vm_compute. reflexivity.
  - vm_compute. reflexivity.
  - split; [exact H1|]. apply H4; simpl; unfold Second, Millisecond; lia.
Defined.

Lemma MSet_remote_failure_witness :
  (MSet opts_both st_empty Second (fun _ => CmdLost) {["a" := val_a]}).2 = Some ErrRedisWrite /\
  redisData (MSet opts_both st_empty Second (fun _ => CmdLost) {["a" := val_a]}).1
    !! mkRedisKey opts_both "a" =
    set_result Second (fun _ => CmdLost) (mkRedisKey opts_both "a")
      (proto_Marshal (redis_record opts_both Second val_a)) (HardTimeout test_redis)
      (redisData st_empty !! mkRedisKey opts_both "a").
Proof.
  destruct (MSet_remote_failure opts_both st_empty Second (fun _ => CmdLost) {["a" := val_a]}
              test_redis "a" val_a) as (H1 & H2 & _).
  - reflexivity.
  - apply lookup_insert_eq.
  - vm_compute. reflexivity.
  - split; [exact H1|]. apply H2, lookup_insert_eq.
Defined.

Lemma MGet_local_hits_no_effects_witness :
  (MGet opts_both st_fresh_a Second true all_ok ["a"]).2 = st_fresh_a /\
  loader_keys (MGet opts_both st_fresh_a Second true all_ok ["a"]).1 = None.
Proof.
  destruct (MGet_local_hits_no_effects opts_both st_fresh_a Second true all_ok ["a"] test_lru)
    as (H1 & _ & H3 & _).
  - reflexivity.
  - intros k Hk. apply list_elem_of_singleton in Hk as ->. exists item_fresh_a.
    split; [vm_compute; reflexivity|split; [vm_compute; reflexivity|discriminate]].
  - split; [exact H1|exact H3].
Defined.


Lemma mkRedisKey_namespaces_witness :
  mkRedisKey opts_both ("users" +:+ "_" +:+ "1") = mkRedisKey opts_ns "1".
Proof.
  apply (proj2 (mkRedisKey_namespaces opts_both opts_ns test_redis redis_ns "users" "1" "a" "b"
                  eq_refl eq_refl ltac:(reflexivity))).
Defined.

Lemma decompress_compress_witness :
  decompress 2 (compress 2 val_a) = None.
Proof.
  rewrite (proj1 (decompress_compress (SN:=ident_snappy) 2 val_a
                    ltac:(intros b; reflexivity))).
  reflexivity.
Defined.

